(** * Mahjong tournament tracker: scoring, ledger, roster and leaderboards

    A shallow embedding of the two snapshots of the tracker,
    [src/src/App.jsx] (module [App]: top-K divider, player addition and
    removal, round totals checked against 100000) and
    [src/unnamed/part_000] (module [Grouped]: optional 2-player groups,
    no check of the round total), followed by the properties of the
    scoring engine, the score ledger, the grouping lock and the
    leaderboard builder.

    Numbers.  In the state machines a finite JavaScript number is
    modelled by an exact rational ([Qc], rationals in lowest terms, so
    that equal numbers are equal terms); [NaN] and the infinities appear
    only as the [None] answer of [Number].  The properties proved over
    this model are those that do not depend on how a sum rounds.  Where
    rounding decides, [computeRoundDeltas] is embedded a second time over
    IEEE 754 binary64, the arithmetic the tracker runs in (module
    [Double]). *)

From Stdlib Require Import Ascii QArith Qcanon Qround.
From Stdlib Require Import Floats.SpecFloat.
From stdpp Require Import base option list gmap strings pretty numbers sorting.

Open Scope Qc_scope.

Abbreviation number := Qc.

(** An integer literal such as [30000] or an array length, as a number. *)
Definition num (z : Z) : number := Qc_of_Z z.

(** ** JavaScript built-ins used by the tracker *)

Module JS.

(** [o ?? d]: the fallback [d] replaces an undefined lookup. *)
Definition nullish {A} (o : option A) (d : A) : A :=
  match o with Some v => v | None => d end.

(** [x || 0] on a number that may be undefined: [0] and an absent value
    both give [0]. *)
Definition orZero (o : option number) : number :=
  match o with Some v => v | None => 0 end.

(** [Array.prototype.sort(cmp)].  The sort is stable; with a consistent
    comparator its result is the one stable ordering of the input, which
    insertion computes: [x], earlier in the array than everything in [l],
    moves behind [y] only when [cmp(x, y) > 0]. *)
Fixpoint sort_insert {A} (cmp : A → A → number) (x : A) (l : list A) : list A :=
  match l with
  | [] => [x]
  | y :: l' =>
      if decide (0 < cmp x y) then y :: sort_insert cmp x l' else x :: y :: l'
  end.

Definition sort {A} (cmp : A → A → number) (l : list A) : list A :=
  foldr (sort_insert cmp) [] l.

(** [Object.fromEntries(kvs)]: entries are written in order, a later
    entry overwrites an earlier one with the same key. *)
Definition fromEntries {V} (kvs : list (string * V)) : gmap string V :=
  foldl (λ m kv, <[kv.1 := kv.2]> m) ∅ kvs.

(** [Math.ceil]. *)
Definition Math_ceil (x : number) : number := num (Qceiling x).

(** The integer an index argument denotes: truncation towards zero. *)
Definition toInteger (x : number) : Z :=
  if decide (0 ≤ x) then Qfloor x else Qceiling x.

(** A relative index of [slice] over an array of [len] elements: a
    negative argument counts from the end, and the result is clamped to
    [0 .. len]. *)
Definition relIndex (x : number) (len : nat) : nat :=
  let z := toInteger x in
  if (z <? 0)%Z then Z.to_nat (Z.max (Z.of_nat len + z) 0)
  else Z.to_nat (Z.min z (Z.of_nat len)).

(** [l.slice(start, end)]; [end_ = None] is the one-argument call. *)
Definition slice {A} (l : list A) (start : number) (end_ : option number) : list A :=
  let k := relIndex start (length l) in
  let final := match end_ with
               | Some e => relIndex e (length l)
               | None => length l
               end in
  take (final - k) (drop k l).

End JS.

(** ** Scoring engine (identical in both snapshots) *)

(** A seat entry [{pid, raw}] of the array handed to [computeRoundDeltas]
    (the caller also stores the seat position [idx], which the function
    never reads). *)
Record seatEntry : Type := mkSeat { pid : string; raw : number }.

(** A breakdown record [{pid, delta, base, bonus, raw}]. *)
Module Breakdown.
Record t : Type := mk {
  pid : string;
  delta : number;
  base : number;
  bonus : number;
  raw : number
}.
End Breakdown.

#[global] Instance seatEntry_eq_dec : EqDecision seatEntry.
Proof. solve_decision. Defined.

#[global] Instance Breakdown_eq_dec : EqDecision Breakdown.t.
Proof. solve_decision. Defined.

(** [const sorted = [...seatWithRaw].sort((a, b) => b.raw - a.raw)]. *)
Definition sortedSeats (seatWithRaw : list seatEntry) : list seatEntry :=
  JS.sort (λ a b, raw b - raw a) seatWithRaw.

(** [Object.fromEntries(sorted.map((x, i) => [x.pid, i]))]. *)
Definition rankIndexByPid (seatWithRaw : list seatEntry) : gmap string nat :=
  JS.fromEntries (imap (λ i x, (pid x, i)) (sortedSeats seatWithRaw)).

(** [rankBonus[rankIndexByPid[pid]] ?? 0]: an absent rank index or a table
    too short for it gives an undefined lookup, replaced by [0]. *)
Definition bonusOf (rankBonus : list number) (ranks : gmap string nat)
    (p : string) : number :=
  JS.nullish (ranks !! p ≫= λ i, rankBonus !! i) 0.

Definition computeRoundDeltas (seatWithRaw : list seatEntry)
    (rankBonus : list number) : list Breakdown.t :=
  let ranks := rankIndexByPid seatWithRaw in
  fmap (λ e,
         let base := (raw e - num 30000) / num 1000 in
         let bonus := bonusOf rankBonus ranks (pid e) in
         Breakdown.mk (pid e) (base + bonus) base bonus (raw e))
      seatWithRaw.

(** ** The scoring engine in double precision

    JavaScript numbers are IEEE 754 binary64 values.  [spec_float] with
    [prec = 53] and [emax = 1024] is the standard library's executable
    specification of that format: [SFadd], [SFsub] and [SFdiv] round to
    nearest, ties to even, as [+], [-] and [/] do. *)

#[global] Instance spec_float_eq_dec : EqDecision spec_float.
Proof. solve_decision. Defined.

Module Double.

Definition prec : Z := 53.
Definition emax : Z := 1024.

(** The literal [0]. *)
Definition zero : spec_float := S754_zero false.

(** An integer literal or an integer input, rounded to a double (exact
    below [2^53]). *)
Definition ofZ (z : Z) : spec_float := binary_normalize prec emax z 0 false.

Definition add : spec_float → spec_float → spec_float := SFadd prec emax.
Definition sub : spec_float → spec_float → spec_float := SFsub prec emax.
Definition div : spec_float → spec_float → spec_float := SFdiv prec emax.

(** [x > 0]; false for [NaN]. *)
Definition positive (x : spec_float) : bool := SFltb zero x.

(** [Number.isFinite]. *)
Definition isFinite (x : spec_float) : bool :=
  match x with
  | S754_zero _ | S754_finite _ _ _ => true
  | S754_infinity _ | S754_nan => false
  end.

(** The rational number a finite double stands for, [±m * 2^e]. *)
Definition value (x : spec_float) : Qc :=
  match x with
  | S754_finite s m e =>
      Q2Qc (inject_Z (if s then Z.neg m else Z.pos m) * Qpower (2 # 1) e)
  | _ => 0
  end.

(** [a + b] is computed without rounding. *)
Definition exactAdd (a b : spec_float) : Prop :=
  isFinite (add a b) = true ∧ value (add a b) = value a + value b.

(** [Array.prototype.sort(cmp)] as in [JS.sort], on a comparator that
    answers a double: [x] moves behind [y] only when [cmp(x, y) > 0]. *)
Fixpoint sort_insert {A} (cmp : A → A → spec_float) (x : A) (l : list A) : list A :=
  match l with
  | [] => [x]
  | y :: l' =>
      if positive (cmp x y) then y :: sort_insert cmp x l' else x :: y :: l'
  end.

Definition sort {A} (cmp : A → A → spec_float) (l : list A) : list A :=
  foldr (sort_insert cmp) [] l.

Record seatEntry : Type := mkSeat { pid : string; raw : spec_float }.

Module Breakdown.
Record t : Type := mk {
  pid : string;
  delta : spec_float;
  base : spec_float;
  bonus : spec_float;
  raw : spec_float
}.
End Breakdown.

(** [const sorted = [...seatWithRaw].sort((a, b) => b.raw - a.raw)]. *)
Definition sortedSeats (seatWithRaw : list seatEntry) : list seatEntry :=
  sort (λ a b, sub (raw b) (raw a)) seatWithRaw.

(** [Object.fromEntries(sorted.map((x, i) => [x.pid, i]))]. *)
Definition rankIndexByPid (seatWithRaw : list seatEntry) : gmap string nat :=
  JS.fromEntries (imap (λ i x, (pid x, i)) (sortedSeats seatWithRaw)).

(** [rankBonus[rankIndexByPid[pid]] ?? 0]. *)
Definition bonusOf (rankBonus : list spec_float) (ranks : gmap string nat)
    (p : string) : spec_float :=
  JS.nullish (ranks !! p ≫= λ i, rankBonus !! i) zero.

(** [computeRoundDeltas]:
    [const base = (s.raw - 30000) / 1000; const bonus = ...;
     return { pid: s.pid, delta: base + bonus, base, bonus, raw: s.raw }]. *)
Definition computeRoundDeltas (seatWithRaw : list seatEntry)
    (rankBonus : list spec_float) : list Breakdown.t :=
  let ranks := rankIndexByPid seatWithRaw in
  fmap (λ e,
         let base := div (sub (raw e) (ofZ 30000)) (ofZ 1000) in
         let bonus := bonusOf rankBonus ranks (pid e) in
         Breakdown.mk (pid e) (add base bonus) base bonus (raw e))
      seatWithRaw.


(** A round whose scores are not multiples of 1000, with the bonus table
    of [src/src/App.jsx], and a round of whole thousands. *)
Definition unevenSeats : list seatEntry :=
  [mkSeat "A" (ofZ 26100); mkSeat "B" (ofZ 12000);
   mkSeat "C" (ofZ 50700); mkSeat "D" (ofZ 11200)].

Definition evenSeats : list seatEntry :=
  [mkSeat "A" (ofZ 45000); mkSeat "B" (ofZ 33000);
   mkSeat "C" (ofZ 12000); mkSeat "D" (ofZ 10000)].

Definition appBonus : list spec_float := ofZ <$> [35; 10; -10; -20]%Z.

End Double.

#[global] Instance Double_seatEntry_eq_dec : EqDecision Double.seatEntry.
Proof. solve_decision. Defined.

#[global] Instance Double_exactAdd_dec (a b : spec_float) :
  Decision (Double.exactAdd a b).
Proof. unfold Double.exactAdd. apply _. Defined.

(** The rank the specification gives the entry [e] at seat position [i]:
    the number of entries with a strictly larger raw score, plus the
    number of entries seated before [i] with the same raw score (rank by
    raw score descending, ties broken by input order).  Written from the
    specification's words, for comparison with [rankIndexByPid]. *)
Definition specRank (seats : list seatEntry) (i : nat) (e : seatEntry) : nat :=
  length (filter (λ y, raw e < raw y) seats)
  + length (filter (λ y, raw y = raw e) (take i seats)).

(** The sum of a list of numbers. *)
Definition sumNumbers (l : list number) : number := foldr Qcplus 0 l.

Definition testBonus : list number := [num 20; num 10; num (-10); num (-20)].

Definition testSeats1 : list seatEntry :=
  [mkSeat "A" (num 45000); mkSeat "B" (num 33000);
   mkSeat "C" (num 25000); mkSeat "D" (num 20000)].

Definition testSeats2 : list seatEntry :=
  [mkSeat "E" (num 30000); mkSeat "F" (num 30000);
   mkSeat "G" (num 28000); mkSeat "H" (num 12000)].


(** ** Data model shared by the two snapshots *)

(** A player record [{id, name, avatar, note}]. *)
Module Player.
Record t : Type := mk {
  id : string;
  name : string;
  avatar : string;
  note : string
}.
End Player.

(** A committed round [{id, at, seat, raw, breakdown}].  [at_] keeps the
    clock reading whose ISO rendering the source stores. *)
Module Round.
Record t : Type := mk {
  id : string;
  at_ : N;
  seat : list string;
  raw : list number;
  breakdown : list Breakdown.t
}.
End Round.

(** A group record [{id, name, members}] (second snapshot only). *)
Module Group.
Record t : Type := mk {
  id : string;
  name : string;
  members : list string
}.
End Group.

#[global] Instance Player_eq_dec : EqDecision Player.t.
Proof. solve_decision. Defined.

#[global] Instance Round_eq_dec : EqDecision Round.t.
Proof. solve_decision. Defined.

#[global] Instance Group_eq_dec : EqDecision Group.t.
Proof. solve_decision. Defined.

(** What a handler shows instead of committing: the error line of the
    round dialog ([setError]) or a browser [alert]. *)
Inductive message : Type :=
  | MsgSeats                (* "请选择 4 位不同的玩家 (东南西北有且仅各一人)。" *)
  | MsgScores               (* "请输入有效的分数(整数)。" *)
  | MsgSum (sum : number)   (* `分数总和必须为 100000，目前为 ${sum}` *)
  | MsgBonus                (* "请输入有效的数字" *)
  | MsgTopK                 (* "请输入有效的Top K (1~玩家数)" *)
  | MsgGroups.              (* "启用分组时需要把 8 位选手分成 4 组，每组 2 人。" *)

#[global] Instance message_eq_dec : EqDecision message.
Proof. solve_decision. Defined.

(** The patch objects [handleUpdatePlayer] receives: [{name: v}] from the
    name box, [{avatar: v}] from the file reader. *)
Inductive playerPatch : Type :=
  | PatchName (v : string)
  | PatchAvatar (v : string).

Definition applyPatch (patch : playerPatch) (p : Player.t) : Player.t :=
  match patch with
  | PatchName v => Player.mk (Player.id p) v (Player.avatar p) (Player.note p)
  | PatchAvatar v => Player.mk (Player.id p) (Player.name p) v (Player.note p)
  end.

(** [prev.map(p => (p.id === id ? { ...p, ...patch } : p))]. *)
Definition updatePlayers (id : string) (patch : playerPatch)
    (prev : list Player.t) : list Player.t :=
  fmap (λ p, if decide (Player.id p = id) then applyPatch patch p else p) prev.

(** The value read after validation has found it finite; [0] stands for
    the non-finite answers, which validation rejects beforehand. *)
Definition finite (o : option number) : number := default 0 o.

(** The ledger update of a commit:
    [for (const d of deltas) next[d.pid] = (next[d.pid] || 0) + d.delta]. *)
Definition addDeltas (prev : gmap string number) (deltas : list Breakdown.t)
    : gmap string number :=
  foldl (λ next d,
           <[Breakdown.pid d := JS.orZero (next !! Breakdown.pid d) + Breakdown.delta d]> next)
        prev deltas.

(** [Object.fromEntries(players.map(p => [p.id, 0]))]. *)
Definition zeroScores (players : list Player.t) : gmap string number :=
  JS.fromEntries (fmap (λ p, (Player.id p, 0)) players).

(** The sum of the deltas that the breakdown [bd] records for player [p]. *)
Definition breakdownDelta (p : string) (bd : list Breakdown.t) : number :=
  sumNumbers (fmap Breakdown.delta (filter (λ d, Breakdown.pid d = p) bd)).

(** The fold of all committed rounds for player [p]: the sum of
    [breakdown.delta] over every entry of every round whose player is [p]
    ([0] when there is none). *)
Definition foldedScore (p : string) (rounds : list Round.t) : number :=
  sumNumbers (fmap (λ r, breakdownDelta p (Round.breakdown r)) rounds).

(** A row of a leaderboard: [{key, name, avatar, score}]. *)
Module Item.
Record t : Type := mk {
  key : string;
  name : string;
  avatar : string;
  score : number
}.
End Item.

(** A row of [groupScores]: [{id, name, members, score}]. *)
Module GroupScore.
Record t : Type := mk {
  id : string;
  name : string;
  members : list string;
  score : number
}.
End GroupScore.

(** A row of [groupBoard]: [{key, members, score}]; a member is the
    player record [playersById] holds for the id, or undefined. *)
Module GroupItem.
Record t : Type := mk {
  key : string;
  members : list (option Player.t);
  score : number
}.
End GroupItem.

(** [Object.fromEntries(players.map(p => [p.id, p]))]. *)
Definition playersById (players : list Player.t) : gmap string Player.t :=
  JS.fromEntries (fmap (λ p, (Player.id p, p)) players).

(** The round history: [rounds.slice().reverse().map((r, idx) => ...)],
    each round with the number [rounds.length - idx] shown after "#". *)
Definition roundHistory (rounds : list Round.t) : list (number * Round.t) :=
  imap (λ idx r, (num (Z.of_nat (length rounds)) - num (Z.of_nat idx), r))
    (reverse rounds).

(** The players the round history shows beside the breakdown entries of
    each line: [r.breakdown.map((b, i) => { const p = playersById[b.pid];
    ... <AvatarSmall player={p} /> ... })].  [None] is [undefined], which
    [AvatarSmall] dereferences ([player.avatar]). *)
Definition historyPlayers (players : list Player.t) (rounds : list Round.t)
    : list (list (option Player.t)) :=
  fmap (λ line, fmap (λ b, playersById players !! Breakdown.pid b)
                  (Round.breakdown line.2))
    (roundHistory rounds).

(** [players.map(p => ({ key: p.id, name: p.name, avatar: p.avatar,
    score: playerScores[p.id] || 0 }))], before sorting. *)
Definition boardItems (players : list Player.t)
    (playerScores : gmap string number) : list Item.t :=
  fmap (λ p, Item.mk (Player.id p) (Player.name p) (Player.avatar p)
              (JS.orZero (playerScores !! Player.id p)))
      players.

(** The derived player leaderboard [playerBoard] (identical in both
    snapshots). *)
Definition playerBoard (players : list Player.t)
    (playerScores : gmap string number) : list Item.t :=
  JS.sort (λ a b, Item.score b - Item.score a) (boardItems players playerScores).

(** A rendered leaderboard line: its displayed position, the item and
    whether it is drawn highlighted (above the divider). *)
Record boardRow (A : Type) : Type := mkRow {
  index : number;
  it : A;
  highlight : bool
}.
Arguments mkRow {A} _ _ _.
Arguments index {A} _.
Arguments it {A} _.
Arguments highlight {A} _.

(** A decimal reading of a text box that holds digits and at most a
    leading minus sign (the boxes strip every other character while the
    user types); the empty box reads as [0].  It stands for the built-in
    [Number] in the concrete runs below. *)
Definition digitOf (c : Ascii.ascii) : option Z :=
  let n := Ascii.nat_of_ascii c in
  if decide (48 ≤ n ≤ 57)%nat then Some (Z.of_nat n - 48)%Z else None.

Fixpoint readDigits (acc : Z) (s : string) : option Z :=
  match s with
  | EmptyString => Some acc
  | String c s' =>
      match digitOf c with
      | Some d => readDigits (10 * acc + d)%Z s'
      | None => None
      end
  end.

Definition decimalNumber (s : string) : option number :=
  match s with
  | EmptyString => Some 0
  | String c s' =>
      if decide (c = "-"%char) then
        match s' with
        | EmptyString => None
        | _ => (λ z, num (- z)) <$> readDigits 0 s'
        end
      else num <$> readDigits 0 s
  end.

(** ** First snapshot: [src/src/App.jsx] *)

Module App.

Definition DEFAULT_PLAYERS : list Player.t :=
  [Player.mk "p1" "Sitaowex" "/avatars/sita.jpg" "";
   Player.mk "p2" "Len Ozora" "/avatars/len.jpg" "";
   Player.mk "p3" "TT" "/avatars/tt.jpg" "";
   Player.mk "p4" "Lakto" "/avatars/lakto.jpg" "";
   Player.mk "p5" "Tigris Scientificus" "/avatars/tiger.jpg" "";
   Player.mk "p6" "okamipancake" "/avatars/lj.jpg" "";
   Player.mk "p7" "Silveryena" "/avatars/sil.jpg" "";
   Player.mk "p8" "Neon" "/avatars/neon.png" "";
   Player.mk "p9" "Abgnegplt" "/avatars/Abgnegplt.jpg" ""].

Definition EMPTY_BONUS : list number := [num 35; num 10; num (-10); num (-20)].

(** The [useState] cells of [MahjongTournamentTracker]. *)
Record state : Type := mkState {
  players : list Player.t;
  showSharkySelect : bool;
  sharkySelected : list string;
  playerScores : gmap string number;
  rounds : list Round.t;
  rankBonus : list number;
  topK : number;
  showRoundDialog : bool;
  showSettings : bool;
  showAddPlayer : bool;
  newPlayerName : string;
  newPlayerAvatar : string
}.

Definition setPlayers (v : list Player.t) (s : state) : state :=
  mkState v (showSharkySelect s) (sharkySelected s) (playerScores s) (rounds s)
    (rankBonus s) (topK s) (showRoundDialog s) (showSettings s)
    (showAddPlayer s) (newPlayerName s) (newPlayerAvatar s).
Definition setShowSharkySelect (v : bool) (s : state) : state :=
  mkState (players s) v (sharkySelected s) (playerScores s) (rounds s)
    (rankBonus s) (topK s) (showRoundDialog s) (showSettings s)
    (showAddPlayer s) (newPlayerName s) (newPlayerAvatar s).
Definition setSharkySelected (v : list string) (s : state) : state :=
  mkState (players s) (showSharkySelect s) v (playerScores s) (rounds s)
    (rankBonus s) (topK s) (showRoundDialog s) (showSettings s)
    (showAddPlayer s) (newPlayerName s) (newPlayerAvatar s).
Definition setPlayerScores (v : gmap string number) (s : state) : state :=
  mkState (players s) (showSharkySelect s) (sharkySelected s) v (rounds s)
    (rankBonus s) (topK s) (showRoundDialog s) (showSettings s)
    (showAddPlayer s) (newPlayerName s) (newPlayerAvatar s).
Definition setRounds (v : list Round.t) (s : state) : state :=
  mkState (players s) (showSharkySelect s) (sharkySelected s) (playerScores s) v
    (rankBonus s) (topK s) (showRoundDialog s) (showSettings s)
    (showAddPlayer s) (newPlayerName s) (newPlayerAvatar s).
Definition setRankBonus (v : list number) (s : state) : state :=
  mkState (players s) (showSharkySelect s) (sharkySelected s) (playerScores s)
    (rounds s) v (topK s) (showRoundDialog s) (showSettings s)
    (showAddPlayer s) (newPlayerName s) (newPlayerAvatar s).
Definition setTopK (v : number) (s : state) : state :=
  mkState (players s) (showSharkySelect s) (sharkySelected s) (playerScores s)
    (rounds s) (rankBonus s) v (showRoundDialog s) (showSettings s)
    (showAddPlayer s) (newPlayerName s) (newPlayerAvatar s).
Definition setShowRoundDialog (v : bool) (s : state) : state :=
  mkState (players s) (showSharkySelect s) (sharkySelected s) (playerScores s)
    (rounds s) (rankBonus s) (topK s) v (showSettings s)
    (showAddPlayer s) (newPlayerName s) (newPlayerAvatar s).
Definition setShowSettings (v : bool) (s : state) : state :=
  mkState (players s) (showSharkySelect s) (sharkySelected s) (playerScores s)
    (rounds s) (rankBonus s) (topK s) (showRoundDialog s) v
    (showAddPlayer s) (newPlayerName s) (newPlayerAvatar s).
Definition setShowAddPlayer (v : bool) (s : state) : state :=
  mkState (players s) (showSharkySelect s) (sharkySelected s) (playerScores s)
    (rounds s) (rankBonus s) (topK s) (showRoundDialog s) (showSettings s)
    v (newPlayerName s) (newPlayerAvatar s).
Definition setNewPlayerName (v : string) (s : state) : state :=
  mkState (players s) (showSharkySelect s) (sharkySelected s) (playerScores s)
    (rounds s) (rankBonus s) (topK s) (showRoundDialog s) (showSettings s)
    (showAddPlayer s) v (newPlayerAvatar s).
Definition setNewPlayerAvatar (v : string) (s : state) : state :=
  mkState (players s) (showSharkySelect s) (sharkySelected s) (playerScores s)
    (rounds s) (rankBonus s) (topK s) (showRoundDialog s) (showSettings s)
    (showAddPlayer s) (newPlayerName s) v.

(** The state of a first visit: every [loadPersisted] call answers with
    its fallback. *)
Definition init : state :=
  mkState [] false [] (zeroScores DEFAULT_PLAYERS) [] EMPTY_BONUS (num 4)
    false false false "" "".

Definition resetAll (confirmed : bool) (s : state) : state :=
  if confirmed then setRounds [] (setPlayerScores (zeroScores (players s)) s)
  else s.

Definition handleUpdatePlayer (id : string) (patch : playerPatch) (s : state) : state :=
  setPlayers (updatePlayers id patch (players s)) s.

Definition AddRoundButton_onClick (s : state) : state := setShowRoundDialog true s.

Definition SettingsButton_onClick (s : state) : state := setShowSettings true s.

(** [Leaderboard({items, isGroup})]: the rows drawn above the divider and
    the rows drawn below it. *)
Definition Leaderboard {A} (topK : number) (items : list A) (isGroup : bool)
    : list (boardRow A) * list (boardRow A) :=
  let k := if isGroup then num 2 else topK in
  (if isGroup
   then imap (λ idx x, mkRow (num (Z.of_nat idx) + 1) x true)
          (JS.slice items 0 (Some (num 2)))
   else imap (λ idx x, mkRow (num (Z.of_nat idx) + 1) x true)
          (JS.slice items 0 (Some k)),
   if isGroup
   then imap (λ i x, mkRow (num (Z.of_nat i) + num 3) x false)
          (JS.slice items (num 2) None)
   else imap (λ i x, mkRow (num (Z.of_nat i) + k + 1) x false)
          (JS.slice items k None)).

Definition handleAddPlayer (s : state) : state :=
  setNewPlayerAvatar "" (setNewPlayerName "" (setShowAddPlayer true s)).

(** The id [`p${Date.now()}`] of a player added at clock reading [now]. *)
Definition newPlayerId (now : N) : string := "p" +:+ pretty now.

(** The "完成" button of the default-player screen (enabled when at least
    one default player is ticked). *)
Definition sharkyDone (s : state) : state :=
  let selectedPlayers :=
    filter (λ p, Player.id p ∈ sharkySelected s) DEFAULT_PLAYERS in
  let next := players s ++ selectedPlayers in
  setSharkySelected []
    (setShowSharkySelect false
       (setPlayerScores
          (foldl (λ m p, <[Player.id p := 0]> m) (playerScores s) selectedPlayers)
          (setTopK (JS.Math_ceil (num (Z.of_nat (length next)) / num 2))
             (setPlayers next s)))).

Definition sharkyToggle (id : string) (s : state) : state :=
  setSharkySelected
    (if decide (id ∈ sharkySelected s)
     then filter (λ x, x ≠ id) (sharkySelected s)
     else sharkySelected s ++ [id])
    s.

Definition sharkyClose (s : state) : state :=
  setSharkySelected [] (setShowSharkySelect false s).

(** The "✕" button of a player card, after [window.confirm]. *)
Definition removePlayer (id : string) (confirmed : bool) (s : state) : state :=
  if confirmed
  then setPlayerScores (delete id (playerScores s))
         (setPlayers (filter (λ pl, Player.id pl ≠ id) (players s)) s)
  else s.

Section Handlers.

(** The built-ins [Number] (with [None] for [NaN] and the infinities, the
    answers [Number.isFinite] rejects), [String.prototype.trim], and the
    digest comparison [checkPassword]. *)
Context (Number : string → option number).
Context (trim : string → string).
Context (checkPassword : string → bool).

(** [RoundDialog.validate]; [None] is the empty message. *)
Definition validate (seat raw : list string) : option message :=
  let unique : gset string := list_to_set (filter (λ s, s ≠ "") seat) in
  if decide (size unique ≠ 4%nat) then Some MsgSeats
  else
    let nums := fmap Number raw in
    if decide (Exists (λ n, n = None) nums) then Some MsgScores
    else
      let sum := foldl Qcplus 0 (fmap finite nums) in
      if decide (sum ≠ num 100000) then Some (MsgSum sum) else None.

(** [seat.map((pid, idx) => ({ pid, raw: Number(raw[idx]), idx }))]. *)
Definition seatWithRaw (seat raw : list string) : list seatEntry :=
  imap (λ idx p, mkSeat p (finite (raw !! idx ≫= Number))) seat.

(** [RoundDialog.onSave] with the dialog's [seat] and [raw] cells and the
    clock reading [now]; the second component is the dialog's error cell
    after the call. *)
Definition RoundDialog_onSave (seat raw : list string) (now : N) (s : state)
    : state * option message :=
  match validate seat raw with
  | Some msg => (s, Some msg)
  | None =>
      let deltas := computeRoundDeltas (seatWithRaw seat raw) (rankBonus s) in
      let round := Round.mk ("r" +:+ pretty now) now seat
                     (fmap (λ v, finite (Number v)) raw) deltas in
      (setShowRoundDialog false
         (setPlayerScores (addDeltas (playerScores s) deltas)
            (setRounds (rounds s ++ [round]) s)),
       None)
  end.

(** [SettingsDialog.onSave]; the second component is the [alert]. *)
Definition SettingsDialog_onSave (tempBonus : list string) (tempTopK : string)
    (s : state) : state * option message :=
  let vals := fmap Number tempBonus in
  if decide (Exists (λ v, v = None) vals) then (s, Some MsgBonus)
  else
    match Number tempTopK with
    | None => (s, Some MsgTopK)
    | Some k =>
        if decide (k < 1 ∨ num (Z.of_nat (length (players s))) < k)
        then (s, Some MsgTopK)
        else (setShowSettings false (setTopK k (setRankBonus (fmap finite vals) s)),
              None)
    end.

Definition revertToDefault (confirmed : bool) (s : state) : state :=
  if confirmed
  then setShowSettings false
         (setTopK (num 4)
            (setRankBonus EMPTY_BONUS
               (setRounds [] (setPlayerScores ∅ (setPlayers [] s)))))
  else s.

Definition handleConfirmAddPlayer (now : N) (s : state) : state :=
  if decide (trim (newPlayerName s) = "") then s
  else if checkPassword (trim (newPlayerName s))
  then setSharkySelected [] (setShowSharkySelect true (setShowAddPlayer false s))
  else
    let id := newPlayerId now in
    let next := players s
                ++ [Player.mk id (trim (newPlayerName s)) (newPlayerAvatar s) ""] in
    setShowAddPlayer false
      (setPlayerScores (<[id := 0]> (playerScores s))
         (setTopK (JS.Math_ceil (num (Z.of_nat (length next)) / num 2))
            (setPlayers next s))).

(** The handlers of the page, as events; the last three are the buttons
    of the default-player screen, which opens when the password is
    confirmed as a name. *)
Inductive event : Type :=
  | ResetAll (confirmed : bool)
  | RevertToDefault (confirmed : bool)
  | UpdatePlayer (id : string) (patch : playerPatch)
  | ClickAddRound
  | CloseRoundDialog
  | SaveRound (seat raw : list string) (now : N)
  | ClickSettings
  | CloseSettings
  | SaveSettings (tempBonus : list string) (tempTopK : string)
  | ClickAddPlayer
  | CloseAddPlayer
  | TypePlayerName (v : string)
  | PickPlayerAvatar (v : string)
  | ConfirmAddPlayer (now : N)
  | RemovePlayer (id : string) (confirmed : bool)
  | SharkyToggle (id : string)
  | SharkyDone
  | SharkyClose.

Definition handle (ev : event) (s : state) : state :=
  match ev with
  | ResetAll c => resetAll c s
  | RevertToDefault c => revertToDefault c s
  | UpdatePlayer id patch => handleUpdatePlayer id patch s
  | ClickAddRound => AddRoundButton_onClick s
  | CloseRoundDialog => setShowRoundDialog false s
  | SaveRound seat raw now => (RoundDialog_onSave seat raw now s).1
  | ClickSettings => SettingsButton_onClick s
  | CloseSettings => setShowSettings false s
  | SaveSettings tempBonus tempTopK => (SettingsDialog_onSave tempBonus tempTopK s).1
  | ClickAddPlayer => handleAddPlayer s
  | CloseAddPlayer => setShowAddPlayer false s
  | TypePlayerName v => setNewPlayerName v s
  | PickPlayerAvatar v => setNewPlayerAvatar v s
  | ConfirmAddPlayer now => handleConfirmAddPlayer now s
  | RemovePlayer id c => removePlayer id c s
  | SharkyToggle id => sharkyToggle id s
  | SharkyDone => sharkyDone s
  | SharkyClose => sharkyClose s
  end.

(** No committed round mentions the player id [p]. *)
Definition unusedId (p : string) (s : state) : Prop :=
  Forall (λ r, Forall (λ d, Breakdown.pid d ≠ p) (Round.breakdown r)) (rounds s).

(** When the page offers an event.  A dialog's buttons exist while the
    dialog is shown; the seat selectors of the round dialog offer the
    roster's players (a cleared selector holds the empty string; the
    dialog is mounted afresh, with empty cells, whenever the page state
    changes, so a chosen seat is a player of the current roster) and the
    dialog keeps four seats and four score boxes; a player card exists
    for every roster player.  The default-player screen has a card for
    every default player, and its finishing button is disabled while
    nothing is selected. *)
Definition offered (ev : event) (s : state) : Prop :=
  match ev with
  | ResetAll _ | RevertToDefault _ | CloseSettings | SaveSettings _ _ =>
      showSettings s = true
  | CloseRoundDialog => showRoundDialog s = true
  | SaveRound seat raw _ =>
      showRoundDialog s = true ∧ length seat = 4%nat ∧ length raw = 4%nat
      ∧ Forall (λ p, p = "" ∨ p ∈ fmap Player.id (players s)) seat
  | UpdatePlayer id _ | RemovePlayer id _ => id ∈ fmap Player.id (players s)
  | CloseAddPlayer | TypePlayerName _ | PickPlayerAvatar _ =>
      showAddPlayer s = true
  | ConfirmAddPlayer _ => showAddPlayer s = true
  | SharkyToggle id =>
      showSharkySelect s = true ∧ id ∈ fmap Player.id DEFAULT_PLAYERS
  | SharkyDone => showSharkySelect s = true ∧ sharkySelected s ≠ []
  | SharkyClose => showSharkySelect s = true
  | ClickAddRound | ClickSettings | ClickAddPlayer => True
  end.

(** The event brings no player id into the roster that a committed round
    already mentions: the id [`p${Date.now()}`] of an added player, and
    the ids of the default players an import appends. *)
Definition entersFresh (ev : event) (s : state) : Prop :=
  match ev with
  | ConfirmAddPlayer now => unusedId (newPlayerId now) s
  | SharkyDone =>
      Forall (λ p, unusedId (Player.id p) s)
        (filter (λ p, Player.id p ∈ sharkySelected s) DEFAULT_PLAYERS)
  | _ => True
  end.

(** The states a first visit can reach through the page's handlers. *)
Inductive reachable : state → Prop :=
  | reachable_init : reachable init
  | reachable_step s ev : reachable s → offered ev s → reachable (handle ev s).

Definition run (evs : list event) (s : state) : state :=
  foldl (λ s ev, handle ev s) s evs.

(** Every event of a trace is offered in the state it meets. *)
Fixpoint offeredAll (evs : list event) (s : state) : Prop :=
  match evs with
  | [] => True
  | ev :: evs' => offered ev s ∧ offeredAll evs' (handle ev s)
  end.

(** Every event of a trace brings in fresh ids only. *)
Fixpoint entersFreshAll (evs : list event) (s : state) : Prop :=
  match evs with
  | [] => True
  | ev :: evs' => entersFresh ev s ∧ entersFreshAll evs' (handle ev s)
  end.

End Handlers.

#[global] Instance unusedId_dec (p : string) (s : state) : Decision (unusedId p s).
Proof. unfold unusedId. apply _. Defined.

#[global] Instance offered_dec (ev : event) (s : state) : Decision (offered ev s).
Proof. destruct ev; simpl; apply _. Defined.

#[global] Instance offeredAll_dec Number trim checkPassword
  (evs : list event) (s : state) :
  Decision (offeredAll Number trim checkPassword evs s).
Proof. revert s. induction evs as [|ev evs IH]; intros s; simpl; apply _. Defined.

#[global] Instance entersFresh_dec (ev : event) (s : state) :
  Decision (entersFresh ev s).
Proof. destruct ev; simpl; apply _. Defined.

#[global] Instance entersFreshAll_dec Number trim checkPassword
  (evs : list event) (s : state) :
  Decision (entersFreshAll Number trim checkPassword evs s).
Proof. revert s. induction evs as [|ev evs IH]; intros s; simpl; apply _. Defined.

(** Fold-equivalence of the ledger: every ledger entry is the fold of the
    committed rounds for its player. *)
Definition ledgerFolds (s : state) : Prop :=
  ∀ p v, playerScores s !! p = Some v → v = foldedScore p (rounds s).

(** Every roster player has a ledger entry. *)
Definition rosterInLedger (s : state) : Prop :=
  Forall (λ pl, is_Some (playerScores s !! Player.id pl)) (players s).

End App.

(** ** Second snapshot: [src/unnamed/part_000] *)

Module Grouped.

Definition DEFAULT_PLAYERS : list Player.t :=
  [Player.mk "p1" "Sitaowex" "/avatars/sita.jpg" "";
   Player.mk "p2" "Len Ozora" "/avatars/len.jpg" "";
   Player.mk "p3" "TT" "/avatars/tt.jpg" "";
   Player.mk "p4" "Lakto" "/avatars/lakto.jpg" "";
   Player.mk "p5" "Tigris Scientificus" "/avatars/tiger.jpg" "";
   Player.mk "p6" "okamipancake" "/avatars/lj.jpg" "";
   Player.mk "p7" "Silveryena" "/avatars/sil.jpg" "";
   Player.mk "p8" "Neon" "/avatars/neon.png" ""].

Definition EMPTY_BONUS : list number := [num 20; num 10; num (-10); num (-20)].

(** The four empty groups every reset installs. *)
Definition DEFAULT_GROUPS : list Group.t :=
  [Group.mk "g1" "Group A" []; Group.mk "g2" "Group B" [];
   Group.mk "g3" "Group C" []; Group.mk "g4" "Group D" []].

(** The [useState] cells of [MahjongTournamentTracker]. *)
Record state : Type := mkState {
  players : list Player.t;
  playerScores : gmap string number;
  rounds : list Round.t;
  rankBonus : list number;
  groupsEnabled : bool;
  groups : list Group.t;
  showRoundDialog : bool;
  showSettings : bool;
  showGroupSetup : bool
}.

Definition setPlayers (v : list Player.t) (s : state) : state :=
  mkState v (playerScores s) (rounds s) (rankBonus s) (groupsEnabled s)
    (groups s) (showRoundDialog s) (showSettings s) (showGroupSetup s).
Definition setPlayerScores (v : gmap string number) (s : state) : state :=
  mkState (players s) v (rounds s) (rankBonus s) (groupsEnabled s)
    (groups s) (showRoundDialog s) (showSettings s) (showGroupSetup s).
Definition setRounds (v : list Round.t) (s : state) : state :=
  mkState (players s) (playerScores s) v (rankBonus s) (groupsEnabled s)
    (groups s) (showRoundDialog s) (showSettings s) (showGroupSetup s).
Definition setRankBonus (v : list number) (s : state) : state :=
  mkState (players s) (playerScores s) (rounds s) v (groupsEnabled s)
    (groups s) (showRoundDialog s) (showSettings s) (showGroupSetup s).
Definition setGroupsEnabled (v : bool) (s : state) : state :=
  mkState (players s) (playerScores s) (rounds s) (rankBonus s) v
    (groups s) (showRoundDialog s) (showSettings s) (showGroupSetup s).
Definition setGroups (v : list Group.t) (s : state) : state :=
  mkState (players s) (playerScores s) (rounds s) (rankBonus s) (groupsEnabled s)
    v (showRoundDialog s) (showSettings s) (showGroupSetup s).
Definition setShowRoundDialog (v : bool) (s : state) : state :=
  mkState (players s) (playerScores s) (rounds s) (rankBonus s) (groupsEnabled s)
    (groups s) v (showSettings s) (showGroupSetup s).
Definition setShowSettings (v : bool) (s : state) : state :=
  mkState (players s) (playerScores s) (rounds s) (rankBonus s) (groupsEnabled s)
    (groups s) (showRoundDialog s) v (showGroupSetup s).
Definition setShowGroupSetup (v : bool) (s : state) : state :=
  mkState (players s) (playerScores s) (rounds s) (rankBonus s) (groupsEnabled s)
    (groups s) (showRoundDialog s) (showSettings s) v.

(** The state of a first visit: every [loadPersisted] call answers with
    its fallback. *)
Definition init : state :=
  mkState DEFAULT_PLAYERS (zeroScores DEFAULT_PLAYERS) [] EMPTY_BONUS false
    DEFAULT_GROUPS false false false.

(** [const anyRounds = rounds.length > 0]. *)
Definition anyRounds (s : state) : bool := bool_decide (0 < length (rounds s))%nat.

Definition resetAll (confirmed : bool) (s : state) : state :=
  if confirmed
  then setGroups DEFAULT_GROUPS
         (setGroupsEnabled false
            (setRounds [] (setPlayerScores (zeroScores (players s)) s)))
  else s.

Definition handleUpdatePlayer (id : string) (patch : playerPatch) (s : state) : state :=
  setPlayers (updatePlayers id patch (players s)) s.

Definition AddRoundButton_onClick (s : state) : state := setShowRoundDialog true s.

Definition SettingsButton_onClick (s : state) : state := setShowSettings true s.

(** [GroupSetupButton]: [const disabled = anyRounds; // lock grouping
    after games start], and its [onClick]. *)
Definition GroupSetupButton_disabled (s : state) : bool := anyRounds s.

Definition GroupSetupButton_onClick (s : state) : state := setShowGroupSetup true s.

(** A click on a button: a disabled button does not run its handler. *)
Definition click (disabled : bool) (onClick : state → state) (s : state) : state :=
  if disabled then s else onClick s.

(** [GroupSetupDialog.toggleMember] on the dialog's draft. *)
Definition toggleMember (gid pid : string) (draft : list Group.t) : list Group.t :=
  fmap (λ g,
         if decide (Group.id g ≠ gid) then g
         else Group.mk (Group.id g) (Group.name g)
                (if decide (pid ∈ Group.members g)
                 then filter (λ x, x ≠ pid) (Group.members g)
                 else if decide (length (Group.members g) < 2)%nat
                      then Group.members g ++ [pid]
                      else Group.members g))
      draft.

(** [GroupSetupDialog.isPicked]: a group of the draft other than
    [targetGid] holds [pid]; the check box of [pid] in [targetGid] is
    disabled then. *)
Definition isPicked (pid targetGid : string) (draft : list Group.t) : bool :=
  bool_decide (Exists (λ g, Group.id g ≠ targetGid ∧ pid ∈ Group.members g) draft).

(** The drafts the dialog's enabled check boxes lead to from [start]. *)
Inductive draftReach (start : list Group.t) : list Group.t → Prop :=
  | draft_start : draftReach start start
  | draft_toggle draft gid pid :
      draftReach start draft → isPicked pid gid draft = false →
      draftReach start (toggleMember gid pid draft).

(** Groups with distinct ids, at most two members each, and no player
    listed twice, be it in one group or in two. *)
Definition pairedUp (gs : list Group.t) : Prop :=
  NoDup (Group.id <$> gs)
  ∧ Forall (λ g, (length (Group.members g) ≤ 2)%nat) gs
  ∧ NoDup (concat (Group.members <$> gs)).

(** [GroupSetupDialog.onSave] with the dialog's [enabled] and
    [draftGroups] cells; the second component is the [alert]. *)
Definition GroupSetupDialog_onSave (enabled : bool) (draftGroups : list Group.t)
    (s : state) : state * option message :=
  let total := foldl (λ a g, (a + length (Group.members g))%nat) 0%nat draftGroups in
  if decide (enabled = true ∧ total ≠ 8%nat) then (s, Some MsgGroups)
  else (setShowGroupSetup false
          (setGroups draftGroups (setGroupsEnabled enabled s)),
        None).

(** The derived [groupScores]. *)
Definition groupScores (s : state) : list GroupScore.t :=
  if negb (groupsEnabled s) then []
  else fmap (λ g, GroupScore.mk (Group.id g) (Group.name g) (Group.members g)
                    (foldl (λ acc p, acc + JS.orZero (playerScores s !! p)) 0
                       (Group.members g)))
         (groups s).

(** The derived [groupBoard]. *)
Definition groupBoard (s : state) : list GroupItem.t :=
  if negb (groupsEnabled s) then []
  else JS.sort (λ a b, GroupItem.score b - GroupItem.score a)
         (fmap (λ g, GroupItem.mk (GroupScore.id g)
                       (fmap (λ p, playersById (players s) !! p) (GroupScore.members g))
                       (GroupScore.score g))
            (groupScores s)).

(** [Leaderboard({items, isGroup})] of this snapshot: the divider of the
    player board sits after four rows. *)
Definition Leaderboard {A} (items : list A) (isGroup : bool)
    : list (boardRow A) * list (boardRow A) :=
  (if isGroup
   then imap (λ idx x, mkRow (num (Z.of_nat idx) + 1) x true)
          (JS.slice items 0 (Some (num 2)))
   else imap (λ idx x, mkRow (num (Z.of_nat idx) + 1) x true)
          (JS.slice items 0 (Some (num 4))),
   if isGroup
   then imap (λ i x, mkRow (num (Z.of_nat i) + num 3) x false)
          (JS.slice items (num 2) None)
   else imap (λ i x, mkRow (num (Z.of_nat i) + num 5) x false)
          (JS.slice items (num 4) None)).

Section Handlers.

Context (Number : string → option number).

(** [RoundDialog.validate]; [None] is the empty message.  This snapshot
    does not check the total of the four scores. *)
Definition validate (seat raw : list string) : option message :=
  let unique : gset string := list_to_set (filter (λ s, s ≠ "") seat) in
  if decide (size unique ≠ 4%nat) then Some MsgSeats
  else
    let nums := fmap Number raw in
    if decide (Exists (λ n, n = None) nums) then Some MsgScores
    else None.

Definition seatWithRaw (seat raw : list string) : list seatEntry :=
  imap (λ idx p, mkSeat p (finite (raw !! idx ≫= Number))) seat.

Definition RoundDialog_onSave (seat raw : list string) (now : N) (s : state)
    : state * option message :=
  match validate seat raw with
  | Some msg => (s, Some msg)
  | None =>
      let deltas := computeRoundDeltas (seatWithRaw seat raw) (rankBonus s) in
      let round := Round.mk ("r" +:+ pretty now) now seat
                     (fmap (λ v, finite (Number v)) raw) deltas in
      (setShowRoundDialog false
         (setPlayerScores (addDeltas (playerScores s) deltas)
            (setRounds (rounds s ++ [round]) s)),
       None)
  end.

Definition SettingsDialog_onSave (tempBonus : list string) (s : state)
    : state * option message :=
  let vals := fmap Number tempBonus in
  if decide (Exists (λ v, v = None) vals) then (s, Some MsgBonus)
  else (setShowSettings false (setRankBonus (fmap finite vals) s), None).

Definition revertToDefault (confirmed : bool) (s : state) : state :=
  if confirmed
  then setShowSettings false
         (setGroups DEFAULT_GROUPS
            (setGroupsEnabled false
               (setRankBonus EMPTY_BONUS
                  (setRounds []
                     (setPlayerScores (zeroScores DEFAULT_PLAYERS)
                        (setPlayers DEFAULT_PLAYERS s))))))
  else s.

Inductive event : Type :=
  | ResetAll (confirmed : bool)
  | RevertToDefault (confirmed : bool)
  | UpdatePlayer (id : string) (patch : playerPatch)
  | ClickAddRound
  | CloseRoundDialog
  | SaveRound (seat raw : list string) (now : N)
  | ClickSettings
  | CloseSettings
  | SaveSettings (tempBonus : list string)
  | ClickGroupSetup
  | CloseGroupSetup
  | SaveGroups (enabled : bool) (draftGroups : list Group.t).

Definition handle (ev : event) (s : state) : state :=
  match ev with
  | ResetAll c => resetAll c s
  | RevertToDefault c => revertToDefault c s
  | UpdatePlayer id patch => handleUpdatePlayer id patch s
  | ClickAddRound => AddRoundButton_onClick s
  | CloseRoundDialog => setShowRoundDialog false s
  | SaveRound seat raw now => (RoundDialog_onSave seat raw now s).1
  | ClickSettings => SettingsButton_onClick s
  | CloseSettings => setShowSettings false s
  | SaveSettings tempBonus => (SettingsDialog_onSave tempBonus s).1
  | ClickGroupSetup => click (GroupSetupButton_disabled s) GroupSetupButton_onClick s
  | CloseGroupSetup => setShowGroupSetup false s
  | SaveGroups enabled draftGroups => (GroupSetupDialog_onSave enabled draftGroups s).1
  end.

(** When the page offers an event.  A dialog's buttons exist while the
    dialog is shown.  The three header buttons stay in the page while a
    dialog is open: the dialog's backdrop covers them for the pointer
    only, they keep their handlers and remain reachable from the
    keyboard, so an open dialog does not exclude the others. *)
Definition offered (ev : event) (s : state) : Prop :=
  match ev with
  | ResetAll _ | RevertToDefault _ | CloseSettings | SaveSettings _ =>
      showSettings s = true
  | CloseRoundDialog => showRoundDialog s = true
  | SaveRound seat raw _ =>
      showRoundDialog s = true ∧ length seat = 4%nat ∧ length raw = 4%nat
      ∧ Forall (λ p, p = "" ∨ p ∈ fmap Player.id (players s)) seat
  | UpdatePlayer id _ => id ∈ fmap Player.id (players s)
  | CloseGroupSetup | SaveGroups _ _ => showGroupSetup s = true
  | ClickAddRound | ClickSettings | ClickGroupSetup => True
  end.

Inductive reachable : state → Prop :=
  | reachable_init : reachable init
  | reachable_step s ev : reachable s → offered ev s → reachable (handle ev s).

Definition run (evs : list event) (s : state) : state :=
  foldl (λ s ev, handle ev s) s evs.

(** Every event of a trace is offered in the state it meets. *)
Fixpoint offeredAll (evs : list event) (s : state) : Prop :=
  match evs with
  | [] => True
  | ev :: evs' => offered ev s ∧ offeredAll evs' (handle ev s)
  end.

End Handlers.

#[global] Instance offered_dec (ev : event) (s : state) : Decision (offered ev s).
Proof. destruct ev; simpl; apply _. Defined.

#[global] Instance offeredAll_dec Number (evs : list event) (s : state) :
  Decision (offeredAll Number evs s).
Proof. revert s. induction evs as [|ev evs IH]; intros s; simpl; apply _. Defined.

(** The ledger agrees with the fold of the rounds for every player id,
    an absent entry counting as [0]. *)
Definition ledgerFolds (s : state) : Prop :=
  ∀ p, JS.orZero (playerScores s !! p) = foldedScore p (rounds s).

(** The seats of every committed round are players of the roster. *)
Definition seatsInRoster (s : state) : Prop :=
  Forall (λ r, Forall (λ d, Breakdown.pid d ∈ Player.id <$> players s)
                 (Round.breakdown r))
    (rounds s).

(** The grouping configuration: the enabled flag and the membership. *)
Definition grouping (s : state) : bool * list Group.t := (groupsEnabled s, groups s).

End Grouped.

(** ** Concrete runs *)

(** Stand-ins for two built-ins in the concrete runs: a [trim] that
    strips ASCII white space, and digest comparisons that accept no name
    ([noPassword]) or the one name "sharky" ([demoPassword]). *)
Fixpoint dropSpace (s : string) : string :=
  match s with
  | EmptyString => EmptyString
  | String a s' => if Ascii.is_space a then dropSpace s' else s
  end.

Definition asciiTrim (s : string) : string :=
  String.rev (dropSpace (String.rev (dropSpace s))).

Definition noPassword (s : string) : bool := false.

Definition demoPassword (s : string) : bool := bool_decide (s = "sharky").

(** Four players are added by name, play one round, the fourth is
    removed, the organizer sets the divider to 1, and a fifth name is
    typed into the add-player dialog. *)
Definition appEvents : list App.event :=
  [App.ClickAddPlayer; App.TypePlayerName "Ann"; App.ConfirmAddPlayer 1000;
   App.ClickAddPlayer; App.TypePlayerName "Bo"; App.ConfirmAddPlayer 2000;
   App.ClickAddPlayer; App.TypePlayerName "Cy"; App.ConfirmAddPlayer 3000;
   App.ClickAddPlayer; App.TypePlayerName "Di"; App.ConfirmAddPlayer 4000;
   App.ClickAddRound;
   App.SaveRound ["p1000"; "p2000"; "p3000"; "p4000"]
     ["45000"; "33000"; "12000"; "10000"] 5000;
   App.RemovePlayer "p4000" true;
   App.ClickSettings;
   App.SaveSettings ["20"; "10"; "-10"; "-20"] "1";
   App.ClickAddPlayer; App.TypePlayerName " Eve "].

Definition appState : App.state :=
  App.run decimalNumber asciiTrim noPassword appEvents App.init.

(** The default-player screen: the password is typed as a name, four
    default players are imported and play a round, then the screen is
    opened again and "p1" is imported a second time. *)
Definition importEvents1 : list App.event :=
  [App.ClickAddPlayer; App.TypePlayerName "sharky"; App.ConfirmAddPlayer 1000].

Definition importEvents2 : list App.event :=
  [App.ClickAddRound;
   App.SaveRound ["p1"; "p2"; "p3"; "p4"]
     ["45000"; "33000"; "12000"; "10000"] 2000;
   App.ClickAddPlayer; App.TypePlayerName "sharky"; App.ConfirmAddPlayer 3000].

Definition importEvents : list App.event :=
  importEvents1
  ++ [App.SharkyToggle "p1"; App.SharkyToggle "p2"; App.SharkyToggle "p3";
      App.SharkyToggle "p4"; App.SharkyDone]
  ++ importEvents2
  ++ [App.SharkyToggle "p1"; App.SharkyDone].

(** The group dialog is opened before the first round and stays open
    while a round is entered and saved. *)
Definition groupedEvents : list Grouped.event :=
  [Grouped.ClickGroupSetup; Grouped.ClickAddRound;
   Grouped.SaveRound ["p1"; "p2"; "p3"; "p4"]
     ["45000"; "33000"; "25000"; "20000"] 1000].

Definition groupedState : Grouped.state :=
  Grouped.run decimalNumber groupedEvents Grouped.init.

(** A draft the dialog's check boxes produce from the default groups. *)
Definition pairedDraft : list Group.t :=
  foldl (λ draft gp, Grouped.toggleMember gp.1 gp.2 draft) Grouped.DEFAULT_GROUPS
    [("g1", "p1"); ("g1", "p2"); ("g2", "p3"); ("g2", "p4");
     ("g3", "p5"); ("g3", "p6"); ("g4", "p7"); ("g4", "p8")].

(** * Properties *)

(** ** Lists and maps *)

Lemma filter_none {A} (P : A → Prop) `{!∀ x, Decision (P x)} (l : list A) :
  Forall (λ x, ¬ P x) l → filter P l = [].
Proof.
  induction 1 as [|x l Hx _ IH]; [done|].
  by rewrite filter_cons, decide_False.
Qed.

(** ** The stable descending sort *)

Section SortByKey.

Context {A : Type} (key : A → number).

(** The comparator [(a, b) => key(b) - key(a)] of both sorts. *)
Local Abbreviation desc := (λ a b : A, key b - key a).
Local Abbreviation ordered := (StronglySorted (λ a b : A, key b ≤ key a)).

Lemma desc_positive (a b : A) : 0 < key b - key a ↔ key a < key b.
Proof. symmetry. apply Qclt_minus_iff. Qed.

Lemma sort_insert_behind (x y : A) (l : list A) :
  key x < key y →
  JS.sort_insert desc x (y :: l) = y :: JS.sort_insert desc x l.
Proof. intros H. simpl. by rewrite decide_True by (by apply desc_positive). Qed.

Lemma sort_insert_front (x y : A) (l : list A) :
  key y ≤ key x → JS.sort_insert desc x (y :: l) = x :: y :: l.
Proof.
  intros H. simpl. rewrite decide_False; [done|].
  rewrite desc_positive. by apply Qcle_not_lt.
Qed.

Lemma sort_insert_perm (x : A) (l : list A) :
  JS.sort_insert desc x l ≡ₚ x :: l.
Proof.
  induction l as [|y l IH]; simpl; [done|].
  case_decide; [|done].
  rewrite IH. apply perm_swap.
Qed.

Lemma sort_perm (l : list A) : JS.sort desc l ≡ₚ l.
Proof.
  induction l as [|x l IH]; simpl; [done|].
  fold (JS.sort desc l). by rewrite sort_insert_perm, IH.
Qed.

Lemma sort_length (l : list A) : length (JS.sort desc l) = length l.
Proof. apply Permutation_length, sort_perm. Qed.

Lemma sort_insert_ordered (x : A) (l : list A) :
  ordered l → ordered (JS.sort_insert desc x l).
Proof.
  induction 1 as [|y l Hl IH Hy]; simpl.
  - repeat constructor.
  - case_decide as Hlt.
    + apply desc_positive in Hlt. constructor; [done|].
      rewrite sort_insert_perm. constructor; [|done].
      by apply Qclt_le_weak.
    + rewrite desc_positive in Hlt. apply Qcnot_lt_le in Hlt.
      constructor; [by constructor|].
      constructor; [done|].
      eapply Forall_impl; [exact Hy|].
      intros z Hz; simpl in *. by apply Qcle_trans with (key y).
Qed.

Lemma sort_ordered (l : list A) : ordered (JS.sort desc l).
Proof.
  induction l as [|x l IH]; simpl; [constructor|].
  by apply sort_insert_ordered.
Qed.

(** Stability: the entries with one given key keep their input order. *)
Lemma sort_insert_ties (v : number) (x : A) (l : list A) :
  filter (λ y, key y = v) (JS.sort_insert desc x l)
  = filter (λ y, key y = v) (x :: l).
Proof.
  induction l as [|y l IH]; simpl; [done|].
  case_decide as Hlt; [|done].
  apply desc_positive in Hlt.
  rewrite (filter_cons _ y), IH, !filter_cons.
  destruct (decide (key x = v)) as [Hx|]; [|done].
  destruct (decide (key y = v)) as [Hy|]; [|done].
  rewrite Hx, Hy in Hlt. by apply Qclt_not_eq in Hlt.
Qed.

Lemma sort_ties (v : number) (l : list A) :
  filter (λ y, key y = v) (JS.sort desc l) = filter (λ y, key y = v) l.
Proof.
  induction l as [|x l IH]; simpl; [done|].
  fold (JS.sort desc l). by rewrite sort_insert_ties, !filter_cons, IH.
Qed.

(** A stable descending ordering of a list is unique: whatever algorithm
    an engine uses for its stable [sort], the result is the list
    [JS.sort] computes. *)
Lemma stable_order_unique (l1 l2 : list A) :
  ordered l1 → ordered l2 → l1 ≡ₚ l2 →
  (∀ v, filter (λ y, key y = v) l1 = filter (λ y, key y = v) l2) →
  l1 = l2.
Proof.
  intros H1. revert l2.
  induction H1 as [|x l1 H1 IH Hx]; intros l2 H2 Hperm Hties.
  - symmetry. by apply Permutation_nil.
  - destruct H2 as [|y l2 H2 Hy].
    { symmetry in Hperm. by apply Permutation_nil_cons in Hperm. }
    assert (key x ≤ key y) as Hxy.
    { assert (x ∈ y :: l2) as Hin by (rewrite <- Hperm; by left).
      apply elem_of_cons in Hin as [->|Hin]; [apply Qcle_refl|].
      by apply (proj1 (Forall_forall _ _) Hy). }
    assert (key y ≤ key x) as Hyx.
    { assert (y ∈ x :: l1) as Hin by (rewrite Hperm; by left).
      apply elem_of_cons in Hin as [->|Hin]; [apply Qcle_refl|].
      by apply (proj1 (Forall_forall _ _) Hx). }
    assert (key y = key x) as Hkey by (by apply Qcle_antisym).
    pose proof (Hties (key x)) as Hhead.
    rewrite !filter_cons, decide_True, decide_True in Hhead by done.
    injection Hhead as <- _.
    f_equal. apply IH; [done|by apply Permutation_cons_inv in Hperm|].
    intros v. specialize (Hties v). rewrite !filter_cons in Hties.
    destruct (decide (key x = v)); [by injection Hties|done].
Qed.

Lemma stable_sort_unique (l l' : list A) :
  ordered l' → l' ≡ₚ l →
  (∀ v, filter (λ y, key y = v) l' = filter (λ y, key y = v) l) →
  l' = JS.sort desc l.
Proof.
  intros Hord Hperm Hties. apply stable_order_unique.
  - done.
  - apply sort_ordered.
  - by rewrite sort_perm.
  - intros v. by rewrite sort_ties.
Qed.

(** Where insertion puts the new element: behind the entries with a
    strictly larger key. *)
Lemma sort_insert_lookup_new (x : A) (l : list A) :
  ordered l →
  JS.sort_insert desc x l !! length (filter (λ y, key x < key y) l) = Some x.
Proof.
  induction 1 as [|y l Hl IH Hy]; [done|].
  rewrite filter_cons.
  destruct (decide (key x < key y)) as [Hlt|Hge].
  - rewrite sort_insert_behind by done. exact IH.
  - apply Qcnot_lt_le in Hge.
    rewrite sort_insert_front by done.
    rewrite filter_none; [done|].
    eapply Forall_impl; [exact Hy|].
    intros z Hz; simpl in Hz. apply Qcle_not_lt.
    by apply Qcle_trans with (key y).
Qed.

(** Where insertion leaves an old element: one place further when the
    new element's key is not smaller. *)
Lemma sort_insert_lookup_old (z x : A) (l : list A) (k : nat) :
  ordered l → l !! k = Some x →
  JS.sort_insert desc z l
    !! (if decide (key x ≤ key z) then S k else k) = Some x.
Proof.
  intros Hl. revert k.
  induction Hl as [|y l Hl IH Hy]; intros k Hk; [done|].
  destruct (decide (key z < key y)) as [Hlt|Hge].
  - rewrite sort_insert_behind by done.
    destruct k as [|k]; simpl in Hk.
    + injection Hk as ->.
      by rewrite decide_False by (by apply Qclt_not_le).
    + specialize (IH k Hk). by destruct (decide (key x ≤ key z)).
  - apply Qcnot_lt_le in Hge.
    rewrite sort_insert_front by done.
    rewrite decide_True; [done|].
    destruct k as [|k]; simpl in Hk.
    + by injection Hk as ->.
    + apply Qcle_trans with (key y); [|done].
      apply list_elem_of_lookup_2 in Hk.
      by apply (proj1 (Forall_forall _ _) Hy).
Qed.

(** The place of an input entry in the sorted array: behind the earlier
    entries with a key at least as large and the later entries with a
    strictly larger key. *)
Lemma sort_lookup_place (l1 : list A) (x : A) (l2 : list A) :
  JS.sort desc (l1 ++ x :: l2)
    !! (length (filter (λ y, (key x ≤ key y)%Qc) l1)
        + length (filter (λ y, (key x < key y)%Qc) l2))%nat
  = Some x.
Proof.
  induction l1 as [|z l1 IH]; simpl.
  - fold (JS.sort desc l2).
    rewrite <- (Permutation_length (filter_Permutation _ _ _ (sort_perm l2))).
    apply sort_insert_lookup_new, sort_ordered.
  - fold (JS.sort desc (l1 ++ x :: l2)).
    pose proof (sort_insert_lookup_old z x _ _ (sort_ordered _) IH) as H.
    rewrite filter_cons.
    by destruct (decide (key x ≤ key z)).
Qed.

Lemma filter_le_split (v : number) (l : list A) :
  length (filter (λ y, v ≤ key y) l)
  = (length (filter (λ y, (v < key y)%Qc) l)
     + length (filter (λ y, key y = v) l))%nat.
Proof.
  induction l as [|y l IH]; [done|].
  rewrite !filter_cons.
  destruct (decide (v < key y)) as [Hlt|Hnlt].
  - rewrite decide_True by (by apply Qclt_le_weak).
    rewrite decide_False by (intros Heq; by apply Qclt_not_eq in Hlt).
    simpl. by rewrite IH.
  - destruct (decide (key y = v)) as [Heq|Hne].
    + rewrite decide_True by (rewrite Heq; apply Qcle_refl).
      simpl. rewrite IH. lia.
    + rewrite decide_False; [done|].
      intros Hle. apply Qcle_lt_or_eq in Hle as [?|?]; congruence.
Qed.

End SortByKey.

(** ** Objects built by [Object.fromEntries] and by key-wise writes *)

Section Writes.

Context {V : Type}.

Local Abbreviation write :=
  (λ (m : gmap string V) (kv : string * V), <[kv.1 := kv.2]> m).

Lemma foldl_write_other (kvs : list (string * V)) (m : gmap string V) (k : string) :
  k ∉ kvs.*1 → foldl write m kvs !! k = m !! k.
Proof.
  revert m. induction kvs as [|[k' v'] kvs IH]; intros m Hk; simpl; [done|].
  rewrite fmap_cons, not_elem_of_cons in Hk. destruct Hk as [Hne Hk].
  rewrite IH by done. simpl in *. by rewrite lookup_insert_ne.
Qed.

Lemma foldl_write_NoDup (kvs : list (string * V)) (m : gmap string V)
    (k : string) (v : V) :
  NoDup kvs.*1 → (k, v) ∈ kvs → foldl write m kvs !! k = Some v.
Proof.
  revert m. induction kvs as [|[k' v'] kvs IH]; intros m Hnd Hin; simpl.
  - by apply elem_of_nil in Hin.
  - rewrite fmap_cons in Hnd. apply NoDup_cons in Hnd as [Hk' Hnd].
    apply elem_of_cons in Hin as [Heq|Hin].
    + injection Heq as -> ->.
      rewrite foldl_write_other by done. simpl. apply lookup_insert_eq.
    + by apply IH.
Qed.

Lemma foldl_write_Some (kvs : list (string * V)) (m : gmap string V)
    (k : string) (v : V) :
  foldl write m kvs !! k = Some v → (k, v) ∈ kvs ∨ m !! k = Some v.
Proof.
  revert m. induction kvs as [|[k' v'] kvs IH]; intros m H; simpl in *; [by right|].
  apply IH in H as [H|H]; [left; by right|].
  destruct (decide (k' = k)) as [->|Hne].
  - rewrite lookup_insert_eq in H. injection H as ->. left; by left.
  - rewrite lookup_insert_ne in H by done. by right.
Qed.

Lemma foldl_write_is_Some (kvs : list (string * V)) (m : gmap string V) (k : string) :
  k ∈ kvs.*1 ∨ is_Some (m !! k) → is_Some (foldl write m kvs !! k).
Proof.
  revert m. induction kvs as [|[k' v'] kvs IH]; intros m H; simpl in *.
  - destruct H as [H|H]; [by apply elem_of_nil in H|done].
  - apply IH. rewrite elem_of_cons in H.
    destruct (decide (k' = k)) as [->|Hne].
    + right. by rewrite lookup_insert_eq.
    + rewrite lookup_insert_ne by done.
      destruct H as [[?|?]|?]; [congruence|by left|by right].
Qed.

Lemma fromEntries_NoDup (kvs : list (string * V)) (k : string) (v : V) :
  NoDup kvs.*1 → (k, v) ∈ kvs → JS.fromEntries kvs !! k = Some v.
Proof. apply foldl_write_NoDup. Qed.

Lemma fromEntries_Some (kvs : list (string * V)) (k : string) (v : V) :
  JS.fromEntries kvs !! k = Some v → (k, v) ∈ kvs.
Proof.
  intros H. apply foldl_write_Some in H as [H|H]; [done|].
  by rewrite lookup_empty in H.
Qed.

Lemma fromEntries_is_Some (kvs : list (string * V)) (k : string) :
  k ∈ kvs.*1 → is_Some (JS.fromEntries kvs !! k).
Proof. intros H. apply foldl_write_is_Some. by left. Qed.

End Writes.

(** ** Ranks in [computeRoundDeltas] *)

Lemma sortedSeats_perm (seats : list seatEntry) : sortedSeats seats ≡ₚ seats.
Proof. apply (sort_perm raw). Qed.

Lemma sortedSeats_length (seats : list seatEntry) :
  length (sortedSeats seats) = length seats.
Proof. apply Permutation_length, sortedSeats_perm. Qed.

Lemma specRank_middle (l1 : list seatEntry) (e : seatEntry) (l2 : list seatEntry) :
  specRank (l1 ++ e :: l2) (length l1) e
  = (length (filter (λ y, (raw e ≤ raw y)%Qc) l1)
     + length (filter (λ y, (raw e < raw y)%Qc) l2))%nat.
Proof.
  unfold specRank.
  rewrite take_app_length, filter_app, filter_cons, length_app.
  rewrite decide_False by (intros H; by apply Qclt_not_eq in H).
  rewrite (filter_le_split raw). lia.
Qed.

(** The sorted array holds the entry of seat [i] at its specified rank. *)
Lemma specRank_place (seats : list seatEntry) (i : nat) (e : seatEntry) :
  seats !! i = Some e → sortedSeats seats !! specRank seats i e = Some e.
Proof.
  intros H.
  assert (length (take i seats) = i) as Hi.
  { apply length_take_le. apply lookup_lt_Some in H. lia. }
  pose proof (take_drop_middle seats i e H) as Hs.
  pose proof (specRank_middle (take i seats) e (drop (S i) seats)) as Hm.
  pose proof (sort_lookup_place raw (take i seats) e (drop (S i) seats)) as Hp.
  rewrite Hs, Hi in Hm. rewrite Hs in Hp.
  unfold sortedSeats. by rewrite Hm.
Qed.

Lemma specRank_bound (seats : list seatEntry) (i : nat) (e : seatEntry) :
  seats !! i = Some e → (specRank seats i e < length seats)%nat.
Proof.
  intros H. apply specRank_place, lookup_lt_Some in H.
  by rewrite sortedSeats_length in H.
Qed.

(** With pairwise distinct player ids, the rank object maps each player
    to the position of its entry in the sorted array. *)
Lemma rankIndexByPid_sorted (seats : list seatEntry) (i : nat) (e : seatEntry) :
  NoDup (pid <$> seats) → sortedSeats seats !! i = Some e →
  rankIndexByPid seats !! pid e = Some i.
Proof.
  intros Hnd H. apply fromEntries_NoDup.
  - rewrite fmap_imap.
    rewrite (imap_ext _ (const pid)) by done.
    rewrite imap_const. by rewrite sortedSeats_perm.
  - by apply (elem_of_lookup_imap_2 (λ i x, (pid x, i))).
Qed.

Lemma rankIndexByPid_specRank (seats : list seatEntry) (i : nat) (e : seatEntry) :
  NoDup (pid <$> seats) → seats !! i = Some e →
  rankIndexByPid seats !! pid e = Some (specRank seats i e).
Proof. intros Hnd H. by apply rankIndexByPid_sorted, specRank_place. Qed.

Lemma computeRoundDeltas_length (seats : list seatEntry) (B : list number) :
  length (computeRoundDeltas seats B) = length seats.
Proof. unfold computeRoundDeltas. apply length_fmap. Qed.

Lemma computeRoundDeltas_lookup (seats : list seatEntry) (B : list number)
    (i : nat) (e : seatEntry) :
  seats !! i = Some e →
  computeRoundDeltas seats B !! i
  = Some (let base := (raw e - num 30000) / num 1000 in
          let bonus := bonusOf B (rankIndexByPid seats) (pid e) in
          Breakdown.mk (pid e) (base + bonus) base bonus (raw e)).
Proof.
  intros H. unfold computeRoundDeltas.
  by rewrite list_lookup_fmap, H.
Qed.

Lemma bonusOf_specRank (seats : list seatEntry) (B : list number)
    (i : nat) (e : seatEntry) :
  NoDup (pid <$> seats) → seats !! i = Some e →
  bonusOf B (rankIndexByPid seats) (pid e)
  = JS.nullish (B !! specRank seats i e) 0.
Proof.
  intros Hnd H. unfold bonusOf.
  by rewrite (rankIndexByPid_specRank seats i e).
Qed.

(** ** Sums *)


Lemma sumNumbers_app (l k : list number) :
  sumNumbers (l ++ k) = sumNumbers l + sumNumbers k.
Proof. induction l as [|x l IH]; simpl; [ring|rewrite IH; ring]. Qed.


Lemma foldl_plus_sum (a : number) (l : list number) :
  foldl Qcplus a l = a + sumNumbers l.
Proof.
  revert a. induction l as [|x l IH]; intros a; simpl; [ring|].
  rewrite IH. ring.
Qed.

(** ** The scoring engine *)

(** C1: for four seat entries with pairwise distinct player ids and a
    four-entry bonus table, [computeRoundDeltas] returns four records in
    seat order; the record of seat [i] carries the entry's player and raw
    score, [base = (raw - 30000) / 1000], the table entry at the rank of
    the entry ([specRank]: raw score descending, earlier seat first among
    equals) and [delta = base + bonus].  Raw scores range over all finite
    numbers, the integers among them. *)
Theorem computeRoundDeltas_by_rank (seats : list seatEntry) (B : list number) :
  length seats = 4%nat → NoDup (pid <$> seats) → length B = 4%nat →
  length (computeRoundDeltas seats B) = 4%nat
  ∧ ∀ i e, seats !! i = Some e →
      ∃ bonus,
        B !! specRank seats i e = Some bonus
        ∧ computeRoundDeltas seats B !! i
          = Some (Breakdown.mk (pid e)
                    ((raw e - num 30000) / num 1000 + bonus)
                    ((raw e - num 30000) / num 1000) bonus (raw e)).
Proof.
  intros Hlen Hnd HB. split.
  - by rewrite computeRoundDeltas_length.
  - intros i e He.
    pose proof (specRank_bound seats i e He) as Hr.
    rewrite Hlen, <- HB in Hr.
    apply lookup_lt_is_Some in Hr as [bonus Hb].
    exists bonus. split; [done|].
    rewrite (computeRoundDeltas_lookup seats B i e He). simpl.
    by rewrite (bonusOf_specRank seats B i e Hnd He), Hb.
Qed.

Lemma computeRoundDeltas_by_rank_witness :
  length (computeRoundDeltas testSeats1 testBonus) = 4%nat
  ∧ ∀ i e, testSeats1 !! i = Some e →
      ∃ bonus,
        testBonus !! specRank testSeats1 i e = Some bonus
        ∧ computeRoundDeltas testSeats1 testBonus !! i
          = Some (Breakdown.mk (pid e)
                    ((raw e - num 30000) / num 1000 + bonus)
                    ((raw e - num 30000) / num 1000) bonus (raw e)).
Proof.
  apply (computeRoundDeltas_by_rank testSeats1 testBonus).
  - reflexivity.
  - apply (bool_decide_unpack _). vm_compute. reflexivity.
  - reflexivity.
Defined.

(** The first self-test of the source: ranks A > B > C > D and deltas
    35, 13, -15, -30. *)
Lemma selftest_basic :
  (λ d, (Breakdown.pid d, Breakdown.base d, Breakdown.bonus d, Breakdown.delta d))
    <$> computeRoundDeltas testSeats1 testBonus
  = [("A", num 15, num 20, num 35); ("B", num 3, num 10, num 13);
     ("C", num (-5), num (-10), num (-15)); ("D", num (-10), num (-20), num (-30))].
Proof.
  apply (bool_decide_unpack _). vm_compute. reflexivity.
Qed.

Lemma take_split_at {A} (l : list A) (i j : nat) (a : A) :
  (i < j)%nat → l !! i = Some a → ∃ rest, take j l = take i l ++ a :: rest.
Proof.
  intros Hij Ha.
  assert (take j l !! i = Some a) as Ht by (by rewrite lookup_take_lt).
  exists (drop (S i) (take j l)).
  rewrite <- (take_drop_middle _ _ _ Ht) at 1.
  rewrite take_take. by replace (i `min` j)%nat with i by lia.
Qed.

Lemma specRank_ties (seats : list seatEntry) (i j : nat) (a b : seatEntry) :
  (i < j)%nat → seats !! i = Some a → seats !! j = Some b → raw a = raw b →
  (specRank seats i a < specRank seats j b)%nat.
Proof.
  intros Hij Ha Hb Hraw. unfold specRank. rewrite <- Hraw.
  destruct (take_split_at seats i j a Hij Ha) as [rest ->].
  rewrite filter_app, filter_cons, decide_True, length_app by done.
  simpl. lia.
Qed.

(** C2: ranking is stable in seat order.  Of two seat entries with the
    same raw score the one seated earlier stands earlier in the sorted
    array, and when the player ids are pairwise distinct (the function's
    precondition) its player gets the smaller rank index; so for
    [{E,30000},{F,30000},{G,28000},{H,12000}] and the table
    [20,10,-10,-20] the delta of E is 20 and the delta of F is 10. *)
Theorem ties_ranked_by_seat_order :
  (∀ (seats : list seatEntry) (i j : nat) (a b : seatEntry),
     (i < j)%nat →
     seats !! i = Some a → seats !! j = Some b → raw a = raw b →
     ∃ ra rb,
       sortedSeats seats !! ra = Some a
       ∧ sortedSeats seats !! rb = Some b
       ∧ (ra < rb)%nat
       ∧ (NoDup (pid <$> seats) →
          rankIndexByPid seats !! pid a = Some ra
          ∧ rankIndexByPid seats !! pid b = Some rb))
  ∧ (λ d, (Breakdown.pid d, Breakdown.delta d))
      <$> computeRoundDeltas testSeats2 testBonus
    = [("E", num 20); ("F", num 10); ("G", num (-12)); ("H", num (-38))].
Proof.
  split.
  - intros seats i j a b Hij Ha Hb Hraw.
    exists (specRank seats i a), (specRank seats j b).
    split; [by apply specRank_place|].
    split; [by apply specRank_place|].
    split; [by apply specRank_ties|].
    intros Hnd. split; by apply rankIndexByPid_specRank.
  - apply (bool_decide_unpack _). vm_compute. reflexivity.
Qed.

Lemma ties_ranked_by_seat_order_witness :
  ∃ ra rb,
    (ra < rb)%nat
    ∧ rankIndexByPid testSeats2 !! "E" = Some ra
    ∧ rankIndexByPid testSeats2 !! "F" = Some rb.
Proof.
  destruct (proj1 ties_ranked_by_seat_order testSeats2 0%nat 1%nat
              (mkSeat "E" (num 30000)) (mkSeat "F" (num 30000)))
    as (ra & rb & _ & _ & Hlt & Hranks).
  - lia.
  - reflexivity.
  - reflexivity.
  - reflexivity.
  - exists ra, rb. split; [exact Hlt|].
    apply Hranks. apply (bool_decide_unpack _). vm_compute. reflexivity.
Defined.

(** ** The scoring engine in double precision *)









(** Where nothing rounds the two embeddings of [computeRoundDeltas] give
    the same numbers, as on the round of whole thousands; on the uneven
    round the doubles are not the exact quotients. *)
Lemma double_agrees_on_thousands :
  (λ d, Double.value (Double.Breakdown.delta d))
    <$> Double.computeRoundDeltas Double.evenSeats Double.appBonus
  = Breakdown.delta
      <$> computeRoundDeltas
            [mkSeat "A" (num 45000); mkSeat "B" (num 33000);
             mkSeat "C" (num 12000); mkSeat "D" (num 10000)]
            (num <$> [35; 10; -10; -20]%Z)
  ∧ (λ d, Double.value (Double.Breakdown.delta d))
      <$> Double.computeRoundDeltas Double.unevenSeats Double.appBonus
    ≠ Breakdown.delta
        <$> computeRoundDeltas
              [mkSeat "A" (num 26100); mkSeat "B" (num 12000);
               mkSeat "C" (num 50700); mkSeat "D" (num 11200)]
              (num <$> [35; 10; -10; -20]%Z).
Proof. apply (bool_decide_unpack _). vm_compute. reflexivity. Qed.

(** C10: [computeRoundDeltas] is total for a bonus table of any length.
    Every seat entry gets a record whose delta is the number
    [base + bonus]; the bonus is the table entry at the player's rank
    index when the table has one, and [0] when the table is too short
    for that index or the rank lookup is undefined. *)
Theorem computeRoundDeltas_total (seats : list seatEntry) (B : list number) :
  length (computeRoundDeltas seats B) = length seats
  ∧ ∀ i e, seats !! i = Some e →
      ∃ d,
        computeRoundDeltas seats B !! i = Some d
        ∧ Breakdown.base d = (raw e - num 30000) / num 1000
        ∧ Breakdown.delta d = Breakdown.base d + Breakdown.bonus d
        ∧ match rankIndexByPid seats !! pid e with
          | Some r =>
              match B !! r with
              | Some b => (r < length B)%nat ∧ Breakdown.bonus d = b
              | None => (length B ≤ r)%nat ∧ Breakdown.bonus d = 0
              end
          | None => Breakdown.bonus d = 0
          end.
Proof.
  split; [apply computeRoundDeltas_length|].
  intros i e He. eexists. split; [by apply computeRoundDeltas_lookup|].
  simpl. split; [done|]. split; [done|].
  unfold bonusOf.
  destruct (rankIndexByPid seats !! pid e) as [r|]; simpl; [|done].
  destruct (B !! r) as [b|] eqn:Hb; simpl.
  - split; [by apply lookup_lt_Some in Hb|done].
  - split; [by apply lookup_ge_None in Hb|done].
Qed.

(** With the one-entry table [[20]] only the winner gets a bonus. *)
Lemma computeRoundDeltas_total_witness :
  ∃ d,
    computeRoundDeltas testSeats1 [num 20] !! 1%nat = Some d
    ∧ Breakdown.base d = (num 33000 - num 30000) / num 1000
    ∧ Breakdown.delta d = Breakdown.base d + Breakdown.bonus d
    ∧ match rankIndexByPid testSeats1 !! "B" with
      | Some r =>
          match [num 20] !! r with
          | Some b => (r < 1)%nat ∧ Breakdown.bonus d = b
          | None => (1 ≤ r)%nat ∧ Breakdown.bonus d = 0
          end
      | None => Breakdown.bonus d = 0
      end.
Proof.
  apply (proj2 (computeRoundDeltas_total testSeats1 [num 20]) 1%nat
           (mkSeat "B" (num 33000))).
  reflexivity.
Defined.

Lemma short_table_run :
  (λ d, (Breakdown.pid d, Breakdown.bonus d, Breakdown.delta d))
    <$> computeRoundDeltas testSeats1 [num 20]
  = [("A", num 20, num 35); ("B", 0, num 3); ("C", 0, num (-5)); ("D", 0, num (-10))].
Proof. apply (bool_decide_unpack _). vm_compute. reflexivity. Qed.

(** ** The leaderboard builder *)

Lemma relIndex_zero (len : nat) : JS.relIndex 0 len = 0%nat.
Proof.
  unfold JS.relIndex.
  replace (JS.toInteger 0) with 0%Z by reflexivity.
  simpl. lia.
Qed.

Lemma relIndex_bound (x : number) (len : nat) : (JS.relIndex x len ≤ len)%nat.
Proof.
  unfold JS.relIndex. destruct (Z.ltb_spec (JS.toInteger x) 0); lia.
Qed.

(** The two slices at one cut point put the array back together. *)
Lemma slice_cut {A} (l : list A) (k : number) :
  JS.slice l 0 (Some k) ++ JS.slice l k None = l.
Proof.
  unfold JS.slice. rewrite relIndex_zero, drop_0, Nat.sub_0_r.
  pose proof (relIndex_bound k (length l)).
  rewrite (take_ge (drop _ _)) by (rewrite length_drop; lia).
  apply take_drop.
Qed.

Lemma rows_items {A} (f : nat → number) (h : bool) (l : list A) :
  it <$> imap (λ i x, mkRow (f i) x h) l = l.
Proof.
  apply list_eq; intros i.
  rewrite list_lookup_fmap, list_lookup_imap. by destruct (l !! i).
Qed.

Lemma boardItems_entries (players : list Player.t) (scores : gmap string number) :
  boardItems players scores
  = (λ p, Item.mk (Player.id p) (Player.name p) (Player.avatar p)
            (default 0 (scores !! Player.id p))) <$> players.
Proof.
  unfold boardItems. apply list_fmap_ext; intros _ p _.
  by destruct (scores !! Player.id p).
Qed.

(** C6: the player leaderboard has one entry per roster player, carrying
    the player's ledger score ([0] when the ledger has none); it is
    ordered by score descending, and the entries with one score keep
    their roster order.  For every [topK] the rows above and below the
    divider, read in order, are the board itself: [topK] moves the
    divider and nothing else (the second snapshot fixes the divider
    after four rows). *)
Theorem playerBoard_order (players : list Player.t) (scores : gmap string number) :
  let entries : list Item.t :=
    (λ p, Item.mk (Player.id p) (Player.name p) (Player.avatar p)
            (default 0 (scores !! Player.id p))) <$> players in
  let board := playerBoard players scores in
  board ≡ₚ entries
  ∧ StronglySorted (λ a b, Item.score b ≤ Item.score a) board
  ∧ (∀ v, filter (λ x, Item.score x = v) board
          = filter (λ x, Item.score x = v) entries)
  ∧ (∀ topK,
       (it <$> (App.Leaderboard topK board false).1)
         ++ (it <$> (App.Leaderboard topK board false).2)
       = board)
  ∧ (it <$> (Grouped.Leaderboard board false).1)
      ++ (it <$> (Grouped.Leaderboard board false).2)
    = board.
Proof.
  intros entries board. subst entries board.
  rewrite <- boardItems_entries. unfold playerBoard.
  split; [apply (sort_perm Item.score)|].
  split; [apply (sort_ordered Item.score)|].
  split; [intros v; apply (sort_ties Item.score)|].
  split.
  - intros topK. unfold App.Leaderboard. simpl.
    rewrite !rows_items. apply slice_cut.
  - unfold Grouped.Leaderboard. simpl.
    rewrite !rows_items. apply slice_cut.
Qed.

(** Three players, the last two tied: the tie keeps roster order, and a
    divider after one row or after two rows shows the same order. *)
Lemma playerBoard_run :
  let players := [Player.mk "a" "Ann" "" ""; Player.mk "b" "Bo" "" "";
                  Player.mk "c" "Cy" "" ""] in
  let scores : gmap string number := <["a" := num 3]> (<["c" := num 7]> ∅) in
  Item.key <$> playerBoard players scores = ["c"; "a"; "b"]
  ∧ Item.key <$> playerBoard (reverse players) (<["a" := 0]> scores) = ["c"; "b"; "a"]
  ∧ (λ r, (index r, Item.key (it r), highlight r))
      <$> (App.Leaderboard (num 1) (playerBoard players scores) false).2
    = [(num 2, "a", false); (num 3, "b", false)].
Proof. intros players scores. apply (bool_decide_unpack _). vm_compute. reflexivity. Qed.

(** ** The score ledger *)

Lemma breakdownDelta_cons (p : string) (d : Breakdown.t) (ds : list Breakdown.t) :
  breakdownDelta p (d :: ds)
  = (if decide (Breakdown.pid d = p) then Breakdown.delta d else 0)
    + breakdownDelta p ds.
Proof.
  unfold breakdownDelta. rewrite filter_cons.
  destruct (decide (Breakdown.pid d = p)); csimpl; ring.
Qed.

Lemma breakdownDelta_unused (p : string) (ds : list Breakdown.t) :
  Forall (λ d, Breakdown.pid d ≠ p) ds → breakdownDelta p ds = 0.
Proof. intros H. unfold breakdownDelta. by rewrite filter_none. Qed.

Lemma foldedScore_snoc (p : string) (rounds : list Round.t) (r : Round.t) :
  foldedScore p (rounds ++ [r])
  = foldedScore p rounds + breakdownDelta p (Round.breakdown r).
Proof.
  unfold foldedScore. rewrite fmap_app, sumNumbers_app. csimpl. ring.
Qed.

Lemma foldedScore_unused (p : string) (rounds : list Round.t) :
  Forall (λ r, Forall (λ d, Breakdown.pid d ≠ p) (Round.breakdown r)) rounds →
  foldedScore p rounds = 0.
Proof.
  unfold foldedScore. induction 1 as [|r rounds Hr _ IH]; csimpl; [done|].
  rewrite IH, breakdownDelta_unused by done. ring.
Qed.

(** A commit adds to each player's entry the deltas the breakdown
    records for that player, starting from [0] when the entry is new. *)
Lemma addDeltas_lookup (ds : list Breakdown.t) (m : gmap string number) (p : string) :
  JS.orZero (addDeltas m ds !! p) = JS.orZero (m !! p) + breakdownDelta p ds.
Proof.
  revert m. induction ds as [|d ds IH]; intros m.
  - unfold breakdownDelta. simpl. ring.
  - unfold addDeltas in *. simpl. rewrite IH, breakdownDelta_cons.
    destruct (decide (Breakdown.pid d = p)) as [->|Hne].
    + rewrite lookup_insert_eq. simpl. ring.
    + rewrite lookup_insert_ne by done. ring.
Qed.

Lemma addDeltas_is_Some (ds : list Breakdown.t) (m : gmap string number) (p : string) :
  is_Some (addDeltas m ds !! p)
  ↔ is_Some (m !! p) ∨ p ∈ Breakdown.pid <$> ds.
Proof.
  revert m. induction ds as [|d ds IH]; intros m.
  - simpl. rewrite elem_of_nil. tauto.
  - unfold addDeltas in *. csimpl. rewrite IH, elem_of_cons.
    destruct (decide (Breakdown.pid d = p)) as [->|Hne].
    + rewrite lookup_insert_eq. split; [intros _; right; by left|].
      intros _. by left.
    + rewrite lookup_insert_ne by done.
      split; [intros [?|?]; auto|].
      intros [?|[?|?]]; [by left|congruence|by right].
Qed.

Lemma computeRoundDeltas_pids (seats : list seatEntry) (B : list number) :
  Breakdown.pid <$> computeRoundDeltas seats B = pid <$> seats.
Proof. unfold computeRoundDeltas. by rewrite <- list_fmap_compose. Qed.

Lemma zeroScores_lookup (players : list Player.t) (p : string) (v : number) :
  zeroScores players !! p = Some v → v = 0.
Proof.
  intros H. apply fromEntries_Some, list_elem_of_fmap in H as [pl [H _]].
  by injection H.
Qed.

Lemma zeroScores_is_Some (players : list Player.t) (pl : Player.t) :
  pl ∈ players → is_Some (zeroScores players !! Player.id pl).
Proof.
  intros H. apply fromEntries_is_Some.
  rewrite <- list_fmap_compose. by apply (list_elem_of_fmap_2 Player.id).
Qed.

(** ** Seat validation *)

Lemma size_list_to_set_cons (x : string) (l : list string) :
  size (list_to_set (x :: l) : gset string)
  = if decide (x ∈ l) then size (list_to_set l : gset string)
    else S (size (list_to_set l : gset string)).
Proof.
  simpl. destruct (decide (x ∈ l)) as [Hin|Hnin].
  - f_equal. apply set_eq. intros y.
    rewrite elem_of_union, elem_of_singleton, elem_of_list_to_set.
    split; [intros [->|?]; done|by right].
  - rewrite size_union, size_singleton; [done|].
    apply disjoint_singleton_l. by rewrite elem_of_list_to_set.
Qed.

Lemma size_list_to_set_le (l : list string) :
  (size (list_to_set l : gset string) ≤ length l)%nat.
Proof.
  induction l as [|x l IH]; [done|].
  rewrite size_list_to_set_cons. simpl. case_decide; lia.
Qed.

Lemma size_list_to_set_NoDup (l : list string) :
  size (list_to_set l : gset string) = length l ↔ NoDup l.
Proof.
  split; [|apply size_list_to_set].
  induction l as [|x l IH]; [constructor|].
  rewrite size_list_to_set_cons. simpl.
  pose proof (size_list_to_set_le l).
  case_decide; intros Hsz; [lia|].
  constructor; [done|]. apply IH. lia.
Qed.

Lemma filter_all {A} (P : A → Prop) `{!∀ x, Decision (P x)} (l : list A) :
  length (filter P l) = length l ↔ Forall P l.
Proof.
  split.
  - intros Hlen. apply Forall_forall. intros x Hx.
    destruct (decide (P x)) as [|Hn]; [done|].
    pose proof (length_filter_lt P l x Hx Hn). lia.
  - induction 1 as [|x l Hx _ IH]; [done|].
    rewrite filter_cons, decide_True by done. simpl. by rewrite IH.
Qed.

Lemma filter_keeps {A} (P : A → Prop) `{!∀ x, Decision (P x)} (l : list A) :
  Forall P l → filter P l = l.
Proof.
  induction 1 as [|x l Hx _ IH]; [done|].
  by rewrite filter_cons, decide_True, IH.
Qed.

(** The seat rule of [validate] on a dialog with four seats: the set of
    chosen players has four elements exactly when no seat is empty and no
    player sits twice. *)
Lemma four_seats (seat : list string) :
  length seat = 4%nat →
  size (list_to_set (filter (λ s, s ≠ "") seat) : gset string) = 4%nat
  ↔ NoDup seat ∧ "" ∉ seat.
Proof.
  intros Hlen.
  pose proof (size_list_to_set_le (filter (λ s, s ≠ "") seat)) as H1.
  pose proof (length_filter (λ s, s ≠ "") seat) as H2.
  split.
  - intros Hsz.
    assert (Forall (λ s, s ≠ "") seat) as Hall
      by (apply (proj1 (filter_all _ _)); lia).
    rewrite filter_keeps in Hsz by done.
    split; [apply size_list_to_set_NoDup; lia|].
    intros Hin. by apply (proj1 (Forall_forall _ _) Hall "").
  - intros [Hnd Hne].
    rewrite filter_keeps.
    + by rewrite size_list_to_set.
    + apply Forall_forall. intros x Hx ->. done.
Qed.

Section RoundValidation.

Context (Number : string → option number).

Lemma validated_total (raw : list string) :
  foldl Qcplus 0 (finite <$> (Number <$> raw))
  = sumNumbers ((λ v, finite (Number v)) <$> raw).
Proof. rewrite foldl_plus_sum, <- list_fmap_compose. apply Qcplus_0_l. Qed.

Lemma not_finite_somewhere (raw : list string) :
  Exists (λ n, n = None) (Number <$> raw) ↔ ∃ v, v ∈ raw ∧ Number v = None.
Proof.
  rewrite Exists_exists. split.
  - intros (n & Hn & ->). apply list_elem_of_fmap in Hn as (v & ? & ?). eauto.
  - intros (v & Hv & Hn). exists None. split; [|done].
    rewrite <- Hn. by apply list_elem_of_fmap_2.
Qed.

(** What each answer of [validate] says about a dialog with four seats
    (first snapshot). *)
Lemma app_validate_cases (seat raw : list string) :
  length seat = 4%nat →
  match App.validate Number seat raw with
  | Some MsgSeats => ¬ (NoDup seat ∧ "" ∉ seat)
  | Some MsgScores =>
      (NoDup seat ∧ "" ∉ seat) ∧ ∃ v, v ∈ raw ∧ Number v = None
  | Some (MsgSum sum) =>
      (NoDup seat ∧ "" ∉ seat) ∧ (¬ ∃ v, v ∈ raw ∧ Number v = None)
      ∧ sum = sumNumbers ((λ v, finite (Number v)) <$> raw)
      ∧ sum ≠ num 100000
  | Some _ => False
  | None =>
      (NoDup seat ∧ "" ∉ seat) ∧ (¬ ∃ v, v ∈ raw ∧ Number v = None)
      ∧ sumNumbers ((λ v, finite (Number v)) <$> raw) = num 100000
  end.
Proof.
  intros Hlen. unfold App.validate. cbv zeta.
  pose proof (four_seats seat Hlen) as Hs.
  pose proof (not_finite_somewhere raw) as Hf.
  rewrite validated_total.
  case_decide as H1; [by rewrite <- Hs|].
  apply Hs in H1.
  case_decide as H2; [by rewrite <- Hf|].
  rewrite Hf in H2.
  by case_decide as H3.
Qed.

(** The same for the second snapshot, which has no rule on the total. *)
Lemma grouped_validate_cases (seat raw : list string) :
  length seat = 4%nat →
  match Grouped.validate Number seat raw with
  | Some MsgSeats => ¬ (NoDup seat ∧ "" ∉ seat)
  | Some MsgScores =>
      (NoDup seat ∧ "" ∉ seat) ∧ ∃ v, v ∈ raw ∧ Number v = None
  | Some _ => False
  | None => (NoDup seat ∧ "" ∉ seat) ∧ ¬ ∃ v, v ∈ raw ∧ Number v = None
  end.
Proof.
  intros Hlen. unfold Grouped.validate. cbv zeta.
  pose proof (four_seats seat Hlen) as Hs.
  pose proof (not_finite_somewhere raw) as Hf.
  case_decide as H1; [by rewrite <- Hs|].
  apply Hs in H1.
  case_decide as H2; [by rewrite <- Hf|].
  by rewrite Hf in H2.
Qed.

End RoundValidation.



Lemma rejected_round_runs :
  (App.RoundDialog_onSave decimalNumber
     ["p1000"; "p2000"; "p3000"; ""] ["40000"; "30000"; "20000"; "10000"]
     6000 appState).2 = Some MsgSeats
  ∧ (App.RoundDialog_onSave decimalNumber
       ["p1000"; "p2000"; "p3000"; "p4000"] ["40000"; "3-0"; "20000"; "10000"]
       6000 appState).2 = Some MsgScores
  ∧ (App.RoundDialog_onSave decimalNumber
       ["p1000"; "p2000"; "p3000"; "p4000"] ["40000"; "30000"; "20000"; "9000"]
       6000 appState).2 = Some (MsgSum (num 99000))
  ∧ (Grouped.RoundDialog_onSave decimalNumber
       ["p1"; "p2"; "p3"; "p4"] ["40000"; "30000"; "20000"; "9000"]
       6000 Grouped.init).2 = None.
Proof. apply (bool_decide_unpack _). vm_compute. reflexivity. Qed.

(** The ledger after the import's writes of [0]. *)
Lemma foldl_zero_lookup (l : list Player.t) (m : gmap string number) (k : string) :
  foldl (λ m p, <[Player.id p := 0]> m) m l !! k
  = if decide (k ∈ Player.id <$> l) then Some 0 else m !! k.
Proof.
  revert m. induction l as [|p l IH]; intros m; csimpl.
  - done.
  - rewrite IH. destruct (decide (k ∈ Player.id <$> l)) as [Hin|Hout].
    + rewrite decide_True; [done|]. by right.
    + destruct (decide (Player.id p = k)) as [<-|Hne].
      * rewrite lookup_insert_eq, decide_True; [done|]. by left.
      * rewrite lookup_insert_ne by done.
        rewrite decide_False; [done|].
        rewrite elem_of_cons. intros [?|?]; [congruence|done].
Qed.

Section LedgerInvariant.

Context (Number : string → option number).
Context (trim : string → string).
Context (checkPassword : string → bool).

Local Abbreviation handle := (App.handle Number trim checkPassword).
Local Abbreviation reachable := (App.reachable Number trim checkPassword).
Local Abbreviation ledgerOk :=
  (λ s : App.state, App.ledgerFolds s ∧ App.rosterInLedger s).

Lemma seatWithRaw_pids (seat raw : list string) :
  pid <$> App.seatWithRaw Number seat raw = seat.
Proof.
  unfold App.seatWithRaw. apply list_eq; intros i.
  rewrite list_lookup_fmap, list_lookup_imap. by destruct (seat !! i).
Qed.

Lemma ledger_init : ledgerOk App.init.
Proof.
  split.
  - intros p v Hv. simpl in Hv. by apply zeroScores_lookup in Hv.
  - constructor.
Qed.

(** The invariant reads the roster, the ledger and the rounds only. *)
Lemma ledger_frame (s s' : App.state) :
  App.players s' = App.players s →
  App.playerScores s' = App.playerScores s →
  App.rounds s' = App.rounds s →
  ledgerOk s → ledgerOk s'.
Proof.
  unfold App.ledgerFolds, App.rosterInLedger.
  by intros -> -> ->.
Qed.

Lemma ledger_resetAll (s : App.state) : ledgerOk (App.resetAll true s).
Proof.
  split.
  - intros p v Hv. simpl in Hv. by apply zeroScores_lookup in Hv.
  - apply Forall_forall. intros pl Hpl. simpl. by apply zeroScores_is_Some.
Qed.

Lemma ledger_revert (s : App.state) : ledgerOk (App.revertToDefault true s).
Proof.
  split.
  - intros p v Hv. simpl in Hv. by rewrite lookup_empty in Hv.
  - constructor.
Qed.

Lemma ledger_update (id : string) (patch : playerPatch) (s : App.state) :
  ledgerOk s → ledgerOk (App.handleUpdatePlayer id patch s).
Proof.
  intros [HF HR]. split; [exact HF|].
  unfold App.rosterInLedger in *. simpl.
  unfold updatePlayers. apply Forall_fmap.
  eapply Forall_impl; [exact HR|].
  intros pl Hpl. simpl. case_decide; [|done]. by destruct patch.
Qed.

Lemma ledger_remove (id : string) (s : App.state) :
  ledgerOk s → ledgerOk (App.removePlayer id true s).
Proof.
  intros [HF HR]. split.
  - intros p v Hv. simpl in Hv.
    apply lookup_delete_Some in Hv as [_ Hv]. by apply HF.
  - unfold App.rosterInLedger in *. simpl.
    apply Forall_forall. intros pl Hpl.
    apply list_elem_of_filter in Hpl as [Hne Hpl].
    rewrite lookup_delete_ne by done.
    by apply (proj1 (Forall_forall _ _) HR).
Qed.

Lemma ledger_add (now : N) (s : App.state) :
  App.unusedId (App.newPlayerId now) s →
  ledgerOk s → ledgerOk (App.handleConfirmAddPlayer trim checkPassword now s).
Proof.
  intros Hfresh [HF HR]. unfold App.handleConfirmAddPlayer.
  case_decide; [done|].
  destruct (checkPassword _); [done|].
  split.
  - intros p v Hv. simpl in Hv.
    destruct (decide (App.newPlayerId now = p)) as [<-|Hne].
    + rewrite lookup_insert_eq in Hv. injection Hv as <-.
      symmetry. by apply foldedScore_unused.
    + rewrite lookup_insert_ne in Hv by done. by apply HF.
  - unfold App.rosterInLedger in *. simpl. apply Forall_app. split.
    + eapply Forall_impl; [exact HR|].
      intros pl Hpl. simpl.
      destruct (decide (App.newPlayerId now = Player.id pl)) as [<-|Hne].
      * by rewrite lookup_insert_eq.
      * by rewrite lookup_insert_ne.
    + constructor; [|constructor]. simpl. by rewrite lookup_insert_eq.
Qed.

Lemma ledger_import (s : App.state) :
  Forall (λ p, App.unusedId (Player.id p) s)
    (filter (λ p, Player.id p ∈ App.sharkySelected s) App.DEFAULT_PLAYERS) →
  ledgerOk s → ledgerOk (App.sharkyDone s).
Proof.
  intros Hfresh [HF HR]. split.
  - intros p v Hv. simpl in Hv. rewrite foldl_zero_lookup in Hv.
    case_decide as Hp; [|by apply HF].
    injection Hv as <-. symmetry. apply foldedScore_unused.
    apply list_elem_of_fmap in Hp as (pl & -> & Hpl).
    by apply (proj1 (Forall_forall _ _) Hfresh).
  - unfold App.rosterInLedger in *. simpl. apply Forall_app. split.
    + eapply Forall_impl; [exact HR|].
      intros pl Hpl. simpl. rewrite foldl_zero_lookup. by case_decide.
    + apply Forall_forall. intros pl Hpl.
      rewrite foldl_zero_lookup, decide_True; [done|].
      by apply list_elem_of_fmap_2.
Qed.

Lemma ledger_commit (seat raw : list string) (now : N) (s : App.state) :
  length seat = 4%nat →
  Forall (λ p, p = "" ∨ p ∈ Player.id <$> App.players s) seat →
  ledgerOk s → ledgerOk (App.RoundDialog_onSave Number seat raw now s).1.
Proof.
  intros Hlen Hseat [HF HR]. unfold App.RoundDialog_onSave.
  pose proof (app_validate_cases Number seat raw Hlen) as Hv.
  destruct (App.validate Number seat raw) as [msg|]; [done|].
  destruct Hv as [[_ Hempty] _].
  set (deltas := computeRoundDeltas _ _). split.
  - intros p v Hp. simpl in Hp. simpl.
    rewrite foldedScore_snoc. simpl. fold deltas.
    pose proof (addDeltas_lookup deltas (App.playerScores s) p) as Hl.
    rewrite Hp in Hl. simpl in Hl.
    destruct (App.playerScores s !! p) as [v0|] eqn:Hold.
    + simpl in Hl. by rewrite Hl, (HF p v0 Hold).
    + exfalso.
      assert (is_Some (addDeltas (App.playerScores s) deltas !! p)) as Hs by eauto.
      apply addDeltas_is_Some in Hs as [Hs|Hs].
      { rewrite Hold in Hs. by destruct Hs. }
      unfold deltas in Hs.
      rewrite computeRoundDeltas_pids, seatWithRaw_pids in Hs.
      apply (proj1 (Forall_forall _ _) Hseat) in Hs as Hs'.
      destruct Hs' as [->|Hin]; [done|].
      apply list_elem_of_fmap in Hin as (pl & -> & Hpl).
      apply (proj1 (Forall_forall _ _) HR) in Hpl.
      rewrite Hold in Hpl. by destruct Hpl.
  - unfold App.rosterInLedger in *. simpl.
    eapply Forall_impl; [exact HR|].
    intros pl Hpl. simpl. apply addDeltas_is_Some. by left.
Qed.

Lemma ledger_settings (tempBonus : list string) (tempTopK : string) (s : App.state) :
  ledgerOk s → ledgerOk (App.SettingsDialog_onSave Number tempBonus tempTopK s).1.
Proof.
  unfold App.SettingsDialog_onSave.
  case_decide; [done|].
  destruct (Number tempTopK); [|done].
  by case_decide.
Qed.

(** Every handler keeps the two ledger invariants, as long as no player
    id enters the roster that a committed round already mentions. *)
Lemma ledger_step (ev : App.event) (s : App.state) :
  App.offered ev s → App.entersFresh ev s → ledgerOk s → ledgerOk (handle ev s).
Proof.
  intros Hoff Hfresh Hok.
  destruct ev as [[]|[]| | | | | | | | | | | | |? []| | |]; simpl in *;
    try exact Hok.
  - by apply ledger_resetAll.
  - by apply ledger_revert.
  - by apply ledger_update.
  - destruct Hoff as (_ & Hlen & _ & Hseat). by apply ledger_commit.
  - by apply ledger_settings.
  - by apply ledger_add.
  - by apply ledger_remove.
  - by apply ledger_import.
Qed.

Lemma ledger_run (evs : list App.event) (s : App.state) :
  App.offeredAll Number trim checkPassword evs s →
  App.entersFreshAll Number trim checkPassword evs s →
  ledgerOk s → ledgerOk (App.run Number trim checkPassword evs s).
Proof.
  revert s. induction evs as [|ev evs IH]; intros s Hoff Hfresh Hok; [done|].
  destruct Hoff as [Hev Hoff]. destruct Hfresh as [Hf Hfresh]. simpl.
  apply IH; [done|done|]. by apply ledger_step.
Qed.

(** Every other path keeps the ledger the fold of the rounds: along a
    trace of page events in which each id that enters the roster - by an
    addition or by an import - is mentioned by no committed round, every
    ledger entry equals the sum of its player's recorded deltas. *)
Lemma ledger_fold_while_ids_fresh (evs : list App.event) :
  App.offeredAll Number trim checkPassword evs App.init →
  App.entersFreshAll Number trim checkPassword evs App.init →
  App.ledgerFolds (App.run Number trim checkPassword evs App.init).
Proof.
  intros Hoff Hfresh. by apply (ledger_run evs App.init Hoff Hfresh), ledger_init.
Qed.

Lemma reachable_run (evs : list App.event) (s : App.state) :
  reachable s → App.offeredAll Number trim checkPassword evs s →
  reachable (App.run Number trim checkPassword evs s).
Proof.
  revert s. induction evs as [|ev evs IH]; intros s Hs Hoff; [done|].
  destruct Hoff as [Hev Hoff]. simpl. apply IH; [|done].
  by constructor.
Qed.

End LedgerInvariant.

(** C3: fold-equivalence of the ledger does not hold on the page.  The
    claim: at any point of any sequence of operations every ledger entry
    equals the sum of the deltas the committed rounds record for its
    player.  The import of default players breaks it: "p1" is imported,
    wins +50 in a round, and is imported a second time; the page offers
    every step, "p1" is in the roster, its ledger entry is 0 and the
    rounds record 50 for it.  Every other handler keeps the invariant
    ([ledger_fold_while_ids_fresh]). *)
Theorem import_breaks_ledger_fold :
  App.offeredAll decimalNumber asciiTrim demoPassword importEvents App.init
  ∧ App.reachable decimalNumber asciiTrim demoPassword
      (App.run decimalNumber asciiTrim demoPassword importEvents App.init)
  ∧ "p1" ∈ Player.id <$>
      App.players (App.run decimalNumber asciiTrim demoPassword importEvents App.init)
  ∧ App.playerScores
      (App.run decimalNumber asciiTrim demoPassword importEvents App.init) !! "p1"
    = Some 0
  ∧ foldedScore "p1"
      (App.rounds (App.run decimalNumber asciiTrim demoPassword importEvents App.init))
    = num 50
  ∧ ¬ App.ledgerFolds
        (App.run decimalNumber asciiTrim demoPassword importEvents App.init).
Proof.
  assert (App.offeredAll decimalNumber asciiTrim demoPassword importEvents App.init)
    as Hoff by (apply (bool_decide_unpack _); vm_compute; reflexivity).
  split; [exact Hoff|].
  split; [apply reachable_run; [constructor|exact Hoff]|].
  assert (App.playerScores
            (App.run decimalNumber asciiTrim demoPassword importEvents App.init)
            !! "p1" = Some 0
          ∧ foldedScore "p1"
              (App.rounds
                 (App.run decimalNumber asciiTrim demoPassword importEvents App.init))
            = num 50) as [Hentry Hfold]
    by (apply (bool_decide_unpack _); vm_compute; reflexivity).
  split; [apply (bool_decide_unpack _); vm_compute; reflexivity|].
  split; [exact Hentry|]. split; [exact Hfold|].
  intros H. specialize (H "p1" 0 Hentry). rewrite Hfold in H.
  revert H. change (0 ≠ num 50).
  apply (bool_decide_unpack _). vm_compute. reflexivity.
Qed.

(** A trace without an import, in which every added id is fresh. *)
Lemma ledger_fold_while_ids_fresh_run :
  App.ledgerFolds appState.
Proof.
  apply (ledger_fold_while_ids_fresh decimalNumber asciiTrim noPassword appEvents);
    apply (bool_decide_unpack _); vm_compute; reflexivity.
Defined.

(** The run behind [appState]: three players remain, each with the delta
    of the one round; the removed fourth player has no ledger entry while
    the round still records its delta. *)
Lemma appState_run :
  (Player.id <$> App.players appState,
   (λ p, App.playerScores appState !! p) <$> ["p1000"; "p2000"; "p3000"; "p4000"],
   (λ p, foldedScore p (App.rounds appState)) <$> ["p1000"; "p2000"; "p3000"; "p4000"])
  = (["p1000"; "p2000"; "p3000"],
     [Some (num 50); Some (num 13); Some (num (-28)); None],
     [num 50; num 13; num (-28); num (-40)]).
Proof. apply (bool_decide_unpack _). vm_compute. reflexivity. Qed.

(** ** The grouping lock (second snapshot) *)

Lemma grouped_reachable_run (Number : string → option number)
    (evs : list Grouped.event) (s : Grouped.state) :
  Grouped.reachable Number s → Grouped.offeredAll Number evs s →
  Grouped.reachable Number (Grouped.run Number evs s).
Proof.
  revert s. induction evs as [|ev evs IH]; intros s Hs Hoff; [done|].
  destruct Hoff as [Hev Hoff]. simpl. apply IH; [|done].
  by constructor.
Qed.

Lemma groupedState_reachable : Grouped.reachable decimalNumber groupedState.
Proof.
  apply grouped_reachable_run; [constructor|].
  apply (bool_decide_unpack _). vm_compute. reflexivity.
Defined.

(** The lock as C7 states it does not hold: a setup dialog opened before
    the first round is still open after a round has been saved, and its
    save button then installs a new grouping although a round is
    committed. *)
Lemma open_dialog_passes_lock :
  Grouped.reachable decimalNumber groupedState
  ∧ Grouped.anyRounds groupedState = true
  ∧ Grouped.offered (Grouped.SaveGroups true pairedDraft) groupedState
  ∧ (Grouped.GroupSetupDialog_onSave true pairedDraft groupedState).2 = None
  ∧ Grouped.grouping groupedState = (false, Grouped.DEFAULT_GROUPS)
  ∧ Grouped.grouping
      (Grouped.handle decimalNumber (Grouped.SaveGroups true pairedDraft) groupedState)
    = (true, pairedDraft)
  ∧ Grouped.grouping
      (Grouped.handle decimalNumber (Grouped.SaveGroups true pairedDraft) groupedState)
    ≠ Grouped.grouping groupedState.
Proof.
  split; [apply groupedState_reachable|].
  apply (bool_decide_unpack _). vm_compute. reflexivity.
Qed.

Lemma grouped_settings_frame (Number : string → option number)
    (tempBonus : list string) (s : Grouped.state) :
  let s' := (Grouped.SettingsDialog_onSave Number tempBonus s).1 in
  Grouped.rounds s' = Grouped.rounds s
  ∧ Grouped.playerScores s' = Grouped.playerScores s
  ∧ Grouped.grouping s' = Grouped.grouping s
  ∧ Grouped.showGroupSetup s' = Grouped.showGroupSetup s.
Proof. unfold Grouped.SettingsDialog_onSave. by case_decide. Qed.

Lemma grouped_commit_frame (Number : string → option number)
    (seat raw : list string) (now : N) (s : Grouped.state) :
  let s' := (Grouped.RoundDialog_onSave Number seat raw now s).1 in
  Grouped.grouping s' = Grouped.grouping s
  ∧ Grouped.showGroupSetup s' = Grouped.showGroupSetup s.
Proof.
  unfold Grouped.RoundDialog_onSave.
  by destruct (Grouped.validate Number seat raw).
Qed.

(** C7, amended: the lock sits on the setup button.  With a round
    committed the button is disabled and a click on it changes nothing;
    while the setup dialog is closed it stays closed and no handler
    changes the enabled flag or the membership, except a confirmed reset,
    which also empties the rounds.  No error is raised.  Without rounds -
    before the first one or right after a reset - the button opens the
    dialog, and saving there installs the draft when grouping is switched
    off or the draft holds eight members in total. *)
Theorem grouping_lock (Number : string → option number) (s : Grouped.state) :
  (Grouped.anyRounds s = true →
     Grouped.GroupSetupButton_disabled s = true
     ∧ Grouped.handle Number Grouped.ClickGroupSetup s = s
     ∧ (Grouped.showGroupSetup s = false →
        ∀ ev, Grouped.offered ev s →
          Grouped.showGroupSetup (Grouped.handle Number ev s) = false
          ∧ (Grouped.grouping (Grouped.handle Number ev s) = Grouped.grouping s
             ∨ ((ev = Grouped.ResetAll true ∨ ev = Grouped.RevertToDefault true)
                ∧ Grouped.anyRounds (Grouped.handle Number ev s) = false))))
  ∧ (Grouped.anyRounds s = false →
     Grouped.showGroupSetup (Grouped.handle Number Grouped.ClickGroupSetup s) = true
     ∧ ∀ enabled draft,
         (enabled = true →
          foldl (λ a g, (a + length (Group.members g))%nat) 0%nat draft = 8%nat) →
         Grouped.GroupSetupDialog_onSave enabled draft
           (Grouped.handle Number Grouped.ClickGroupSetup s)
         = (Grouped.setShowGroupSetup false
              (Grouped.setGroups draft
                 (Grouped.setGroupsEnabled enabled
                    (Grouped.handle Number Grouped.ClickGroupSetup s))),
            None))
  ∧ Grouped.anyRounds (Grouped.resetAll true s) = false
  ∧ Grouped.anyRounds (Grouped.revertToDefault true s) = false.
Proof.
  split; [|split; [|done]].
  - intros Hany. split; [done|]. split.
    { simpl. unfold Grouped.click, Grouped.GroupSetupButton_disabled.
      by rewrite Hany. }
    intros Hclosed ev Hoff.
    destruct ev as [[]|[]|id patch| | |seat rw now| | |tempBonus| | |enabled draft];
      simpl in *; try (split; [done|by left]); try congruence.
    + split; [done|]. right. split; [by left|done].
    + split; [done|]. right. split; [by right|done].
    + destruct (grouped_commit_frame Number seat rw now s) as [Hg Hd].
      simpl in Hg, Hd. rewrite Hd. split; [done|by left].
    + destruct (grouped_settings_frame Number tempBonus s) as (_ & _ & Hg & Hd).
      simpl in Hg, Hd. rewrite Hd. split; [done|by left].
    + unfold Grouped.click, Grouped.GroupSetupButton_disabled.
      rewrite Hany. split; [done|by left].
  - intros Hany. simpl.
    unfold Grouped.click, Grouped.GroupSetupButton_disabled. rewrite Hany.
    split; [done|]. intros enabled draft Hvalid.
    unfold Grouped.GroupSetupDialog_onSave.
    rewrite decide_False; [done|]. intros [He Hne]. by apply Hne, Hvalid.
Qed.

(** With the round of [groupedState] committed and the setup dialog
    closed, the button is dead and the grouping stays as it is. *)
Lemma grouping_lock_witness :
  let s := Grouped.setShowGroupSetup false groupedState in
  Grouped.GroupSetupButton_disabled s = true
  ∧ Grouped.handle decimalNumber Grouped.ClickGroupSetup s = s
  ∧ (Grouped.showGroupSetup s = false →
     ∀ ev, Grouped.offered ev s →
       Grouped.showGroupSetup (Grouped.handle decimalNumber ev s) = false
       ∧ (Grouped.grouping (Grouped.handle decimalNumber ev s) = Grouped.grouping s
          ∨ ((ev = Grouped.ResetAll true ∨ ev = Grouped.RevertToDefault true)
             ∧ Grouped.anyRounds (Grouped.handle decimalNumber ev s) = false))).
Proof.
  intros s.
  apply (proj1 (grouping_lock decimalNumber s)).
  reflexivity.
Defined.

(** ** Settings and roster *)

(** [Math.ceil(n / 2)] on an integer [n], in integer arithmetic. *)
Lemma Math_ceil_half (n : Z) :
  JS.Math_ceil (num n / num 2) = num ((n + 1) / 2).
Proof.
  unfold JS.Math_ceil. f_equal.
  unfold num, Qcdiv, Qcmult, Qcinv. simpl.
  rewrite !Qred_correct.
  unfold Qceiling, Qfloor, Qmult, Qopp. simpl.
  Z.to_euclidean_division_equations. lia.
Qed.

(** C8: saving the settings leaves the committed rounds, with their
    frozen breakdowns, and the ledger as they are, in both snapshots and
    whether the save is accepted or answered by an alert; a later commit
    appends one round and keeps the earlier ones unchanged, so no past
    round is recomputed with a new table. *)
Theorem settings_keep_rounds_and_ledger (Number : string → option number) :
  (∀ tempBonus tempTopK s,
     App.rounds (App.SettingsDialog_onSave Number tempBonus tempTopK s).1
     = App.rounds s
     ∧ App.playerScores (App.SettingsDialog_onSave Number tempBonus tempTopK s).1
       = App.playerScores s)
  ∧ (∀ tempBonus s,
       Grouped.rounds (Grouped.SettingsDialog_onSave Number tempBonus s).1
       = Grouped.rounds s
       ∧ Grouped.playerScores (Grouped.SettingsDialog_onSave Number tempBonus s).1
         = Grouped.playerScores s)
  ∧ (∀ seat raw now s,
       App.rounds s `prefix_of` App.rounds (App.RoundDialog_onSave Number seat raw now s).1)
  ∧ (∀ seat raw now s,
       Grouped.rounds s
       `prefix_of` Grouped.rounds (Grouped.RoundDialog_onSave Number seat raw now s).1).
Proof.
  split; [|split; [|split]].
  - intros tempBonus tempTopK s. unfold App.SettingsDialog_onSave.
    case_decide; [done|].
    destruct (Number tempTopK); [|done]. by case_decide.
  - intros tempBonus s. unfold Grouped.SettingsDialog_onSave. by case_decide.
  - intros seat rw now s. unfold App.RoundDialog_onSave.
    destruct (App.validate Number seat rw); [done|]. by apply prefix_app_r.
  - intros seat rw now s. unfold Grouped.RoundDialog_onSave.
    destruct (Grouped.validate Number seat rw); [done|]. by apply prefix_app_r.
Qed.

(** After the round of [appState] the table was changed from the default
    to [20,10,-10,-20]: the winner's recorded bonus is still the 35 of
    the table in force at the commit, and so is the ledger. *)
Lemma settings_run :
  App.rankBonus appState = testBonus
  ∧ (λ r, Breakdown.bonus <$> Round.breakdown r) <$> App.rounds appState
    = [[num 35; num 10; num (-10); num (-20)]]
  ∧ App.playerScores appState !! "p1000" = Some (num 50).
Proof. apply (bool_decide_unpack _). vm_compute. reflexivity. Qed.

(** C9: a successful addition through [handleConfirmAddPlayer] (the
    trimmed name is not empty and is not the password) appends the new
    player, starts its ledger entry at [0], and sets [topK] to
    [Math.ceil(next.length / 2)] for the new roster - the integer
    [(n + 2) / 2] for a roster that had [n] players - whatever value
    [topK] had before. *)
Theorem add_player_overwrites_topK (trim : string → string)
    (checkPassword : string → bool) (now : N) (s : App.state) :
  trim (App.newPlayerName s) ≠ "" →
  checkPassword (trim (App.newPlayerName s)) = false →
  App.players (App.handleConfirmAddPlayer trim checkPassword now s)
  = App.players s
    ++ [Player.mk (App.newPlayerId now) (trim (App.newPlayerName s))
          (App.newPlayerAvatar s) ""]
  ∧ App.playerScores (App.handleConfirmAddPlayer trim checkPassword now s)
    = <[App.newPlayerId now := 0]> (App.playerScores s)
  ∧ App.topK (App.handleConfirmAddPlayer trim checkPassword now s)
    = JS.Math_ceil (num (Z.of_nat (S (length (App.players s)))) / num 2)
  ∧ App.topK (App.handleConfirmAddPlayer trim checkPassword now s)
    = num ((Z.of_nat (length (App.players s)) + 2) / 2)
  ∧ ∀ k, App.topK (App.handleConfirmAddPlayer trim checkPassword now
                     (App.setTopK k s))
         = App.topK (App.handleConfirmAddPlayer trim checkPassword now s).
Proof.
  intros Hname Hpw.
  assert (∀ k, App.handleConfirmAddPlayer trim checkPassword now (App.setTopK k s)
               = App.handleConfirmAddPlayer trim checkPassword now s) as Hk.
  { intros k. unfold App.handleConfirmAddPlayer. simpl.
    rewrite !decide_False by done. by rewrite Hpw. }
  assert (App.topK (App.handleConfirmAddPlayer trim checkPassword now s)
          = JS.Math_ceil (num (Z.of_nat (S (length (App.players s)))) / num 2))
    as HtopK.
  { unfold App.handleConfirmAddPlayer.
    rewrite decide_False by done. rewrite Hpw. simpl.
    rewrite length_app. simpl. by rewrite Nat.add_1_r. }
  split; [|split; [|split; [|split]]].
  - unfold App.handleConfirmAddPlayer.
    rewrite decide_False by done. by rewrite Hpw.
  - unfold App.handleConfirmAddPlayer.
    rewrite decide_False by done. by rewrite Hpw.
  - exact HtopK.
  - rewrite HtopK, Math_ceil_half. f_equal. f_equal. lia.
  - intros k. by rewrite Hk.
Qed.

(** In [appState] the organizer has set [topK] to 1 for three players;
    adding " Eve " makes it 2. *)
Lemma add_player_overwrites_topK_witness :
  App.topK appState = num 1
  ∧ Player.name <$> App.players (App.handleConfirmAddPlayer asciiTrim noPassword 6000 appState)
    = ["Ann"; "Bo"; "Cy"; "Eve"]
  ∧ App.topK (App.handleConfirmAddPlayer asciiTrim noPassword 6000 appState)
    = num 2.
Proof.
  destruct (add_player_overwrites_topK asciiTrim noPassword 6000 appState)
    as (Hplayers & _ & HtopK & _ & _).
  - vm_compute. discriminate.
  - reflexivity.
  - rewrite Hplayers, HtopK.
    apply (bool_decide_unpack _). vm_compute. reflexivity.
Defined.

(** * Further properties of the code *)

(** ** More on [computeRoundDeltas] *)

(** [Object.fromEntries] keeps the last entry written for a key. *)
Lemma fromEntries_last {V} (l1 l2 : list (string * V)) (k : string) (v : V) :
  k ∉ l2.*1 → JS.fromEntries (l1 ++ (k, v) :: l2) !! k = Some v.
Proof.
  intros Hk. unfold JS.fromEntries. rewrite foldl_app. simpl.
  rewrite foldl_write_other by done. apply lookup_insert_eq.
Qed.

(** X2: When a player id sits in several seat entries (which the caller's
    validation excludes), the rank index kept for the id is the position
    of the last of them in the sorted array: every record of that player
    gets the bonus of the worst of its ranks. *)
Theorem repeated_id_takes_last_rank (seats : list seatEntry) (i : nat)
    (e : seatEntry) :
  sortedSeats seats !! i = Some e →
  (∀ j e', (i < j)%nat → sortedSeats seats !! j = Some e' → pid e' ≠ pid e) →
  rankIndexByPid seats !! pid e = Some i.
Proof.
  intros He Hlast. unfold rankIndexByPid.
  set (kvs := imap (λ i x, (pid x, i)) (sortedSeats seats)).
  assert (kvs !! i = Some (pid e, i)) as Hi
    by (unfold kvs; by rewrite list_lookup_imap, He).
  rewrite <- (take_drop_middle kvs i _ Hi).
  apply fromEntries_last.
  intros Hin. apply list_elem_of_fmap in Hin as ([k n] & Hk & Hin).
  simpl in Hk. subst k.
  apply list_elem_of_lookup in Hin as [m Hm].
  rewrite lookup_drop in Hm. unfold kvs in Hm.
  rewrite list_lookup_imap in Hm.
  destruct (sortedSeats seats !! (S i + m)%nat) as [e'|] eqn:He'; [|done].
  simpl in Hm. injection Hm as Hpid _.
  by apply (Hlast (S i + m)%nat e'); [lia|done|].
Qed.

(** "X" sits first with 40000 and third with 10000: both records get
    the bonus of rank 3 (index 2). *)
Lemma repeated_id_takes_last_rank_witness :
  rankIndexByPid
    [mkSeat "X" (num 40000); mkSeat "Y" (num 30000);
     mkSeat "X" (num 10000)] !! "X"
  = Some 2%nat.
Proof.
  apply (repeated_id_takes_last_rank
           [mkSeat "X" (num 40000); mkSeat "Y" (num 30000);
            mkSeat "X" (num 10000)] 2 (mkSeat "X" (num 10000))).
  - apply (bool_decide_unpack _). vm_compute. reflexivity.
  - intros j e' Hj He'. apply lookup_lt_Some in He'.
    rewrite sortedSeats_length in He'. simpl in He'. lia.
Defined.

(** ** More on a round commit (first snapshot) *)

Lemma addDeltas_other (ds : list Breakdown.t) (m : gmap string number) (p : string) :
  p ∉ Breakdown.pid <$> ds → addDeltas m ds !! p = m !! p.
Proof.
  revert m. induction ds as [|d ds IH]; intros m Hp; [done|].
  rewrite fmap_cons, not_elem_of_cons in Hp. destruct Hp as [Hne Hp].
  unfold addDeltas in *. simpl. rewrite IH by done.
  by rewrite lookup_insert_ne.
Qed.

Lemma breakdownDelta_single (ds : list Breakdown.t) (i : nat) (d : Breakdown.t) :
  NoDup (Breakdown.pid <$> ds) → ds !! i = Some d →
  breakdownDelta (Breakdown.pid d) ds = Breakdown.delta d.
Proof.
  revert i. induction ds as [|x ds IH]; intros i Hnd Hi; [done|].
  rewrite fmap_cons in Hnd. apply NoDup_cons in Hnd as [Hx Hnd].
  rewrite breakdownDelta_cons. destruct i as [|i]; simpl in Hi.
  - injection Hi as ->. rewrite decide_True by done.
    rewrite breakdownDelta_unused; [ring|].
    apply Forall_forall. intros y Hy Heq. apply Hx. rewrite <- Heq.
    by apply list_elem_of_fmap_2.
  - rewrite decide_False.
    + rewrite (IH i) by done. ring.
    + intros Heq. apply Hx. rewrite Heq.
      apply list_elem_of_fmap_2. by apply list_elem_of_lookup_2 in Hi.
Qed.

Lemma num_succ (n : nat) : num (Z.of_nat (S n)) = num (Z.of_nat n) + 1.
Proof.
  unfold num.
  by rewrite Nat2Z.inj_succ, <- Z.add_1_r, Z2Qc_inj_add, Z2Qc_inj_1.
Qed.

Lemma num_0 : num 0 = 0.
Proof. apply Z2Qc_inj_0. Qed.

(** X4: A committed round changes the ledger for the four seated players
    only: each total grows by the delta the stored breakdown records at
    the player's seat (an absent entry starting from [0]); every other
    entry, the roster and the settings stay as they are, one round is
    appended and the dialog closes. *)
Theorem commit_moves_seated_players_only (Number : string → option number)
    (seat raw : list string) (now : N) (s : App.state) :
  length seat = 4%nat → App.validate Number seat raw = None →
  ∃ r,
    App.rounds (App.RoundDialog_onSave Number seat raw now s).1
    = App.rounds s ++ [r]
    ∧ Breakdown.pid <$> Round.breakdown r = seat
    ∧ (∀ i p d, seat !! i = Some p → Round.breakdown r !! i = Some d →
         App.playerScores (App.RoundDialog_onSave Number seat raw now s).1 !! p
         = Some (JS.orZero (App.playerScores s !! p) + Breakdown.delta d))
    ∧ (∀ p, p ∉ seat →
         App.playerScores (App.RoundDialog_onSave Number seat raw now s).1 !! p
         = App.playerScores s !! p)
    ∧ App.players (App.RoundDialog_onSave Number seat raw now s).1 = App.players s
    ∧ App.rankBonus (App.RoundDialog_onSave Number seat raw now s).1 = App.rankBonus s
    ∧ App.topK (App.RoundDialog_onSave Number seat raw now s).1 = App.topK s
    ∧ App.showRoundDialog (App.RoundDialog_onSave Number seat raw now s).1 = false.
Proof.
  intros Hseat Hv.
  pose proof (app_validate_cases Number seat raw Hseat) as Hc.
  unfold App.RoundDialog_onSave. rewrite Hv in *. destruct Hc as ([Hnd _] & _).
  set (deltas := computeRoundDeltas _ _).
  assert (Breakdown.pid <$> deltas = seat) as Hpids
    by (unfold deltas; by rewrite computeRoundDeltas_pids, seatWithRaw_pids).
  eexists. split; [reflexivity|]. simpl. fold deltas.
  split; [done|]. split; [|split; [|done]].
  - intros i p d Hp Hd.
    assert (Breakdown.pid d = p) as <-.
    { assert ((Breakdown.pid <$> deltas) !! i = Some (Breakdown.pid d)) as H
        by (by rewrite list_lookup_fmap, Hd).
      rewrite Hpids, Hp in H. by injection H. }
    pose proof (addDeltas_lookup deltas (App.playerScores s) (Breakdown.pid d)) as Hl.
    rewrite (breakdownDelta_single deltas i d) in Hl by (by rewrite ?Hpids).
    assert (is_Some (addDeltas (App.playerScores s) deltas !! Breakdown.pid d))
      as [v Hsome].
    { apply addDeltas_is_Some. right. apply list_elem_of_fmap_2.
      by apply list_elem_of_lookup_2 in Hd. }
    rewrite Hsome in Hl |- *. simpl in Hl. by rewrite Hl.
  - intros p Hp. apply addDeltas_other. by rewrite Hpids.
Qed.

Lemma commit_moves_seated_players_only_witness :
  ∃ r,
    App.rounds
      (App.RoundDialog_onSave decimalNumber
         ["p1000"; "p2000"; "p3000"; "p4000"]
         ["45000"; "33000"; "12000"; "10000"] 5000 App.init).1
    = App.rounds App.init ++ [r]
    ∧ Breakdown.pid <$> Round.breakdown r = ["p1000"; "p2000"; "p3000"; "p4000"].
Proof.
  destruct (commit_moves_seated_players_only decimalNumber
              ["p1000"; "p2000"; "p3000"; "p4000"]
              ["45000"; "33000"; "12000"; "10000"] 5000 App.init)
    as (r & Hr & Hp & _).
  - reflexivity.
  - vm_compute. reflexivity.
  - exists r. split; [exact Hr|exact Hp].
Defined.

(** ** Settings and the top-K divider (first snapshot) *)

Lemma num_le (a b : Z) : (a ≤ b)%Z → num a ≤ num b.
Proof. apply Z2Qc_inj_le. Qed.

Lemma num_lt (a b : Z) : (a < b)%Z → num a < num b.
Proof. apply Z2Qc_inj_lt. Qed.

Lemma finite_all (X : list (option number)) :
  ¬ Exists (λ v, v = None) X → Some <$> (finite <$> X) = X.
Proof.
  induction X as [|[v|] X IH]; intros H; [done|..].
  - csimpl. f_equal. apply IH. intros HX. apply H. by right.
  - exfalso. apply H. by left.
Qed.

(** X5: The outcomes of [SettingsDialog.onSave]: an accepted save installs
    the parsed table, one entry per input box, and a [topK] between 1 and
    the roster size, and closes the dialog; a rejected save alerts and
    changes nothing. *)
Theorem settings_save_outcomes (Number : string → option number)
    (tempBonus : list string) (tempTopK : string) (s : App.state) :
  match (App.SettingsDialog_onSave Number tempBonus tempTopK s).2 with
  | None =>
      Number tempTopK
      = Some (App.topK (App.SettingsDialog_onSave Number tempBonus tempTopK s).1)
      ∧ 1 ≤ App.topK (App.SettingsDialog_onSave Number tempBonus tempTopK s).1
      ∧ App.topK (App.SettingsDialog_onSave Number tempBonus tempTopK s).1
        ≤ num (Z.of_nat (length (App.players s)))
      ∧ Some <$> App.rankBonus (App.SettingsDialog_onSave Number tempBonus tempTopK s).1
        = Number <$> tempBonus
      ∧ App.showSettings (App.SettingsDialog_onSave Number tempBonus tempTopK s).1
        = false
  | Some m =>
      (App.SettingsDialog_onSave Number tempBonus tempTopK s).1 = s
      ∧ (m = MsgBonus ∨ m = MsgTopK)
  end.
Proof.
  unfold App.SettingsDialog_onSave.
  case_decide as Hb; [simpl; by auto|].
  destruct (Number tempTopK) as [k|] eqn:Hk; [|simpl; by auto].
  case_decide as Hr; [simpl; by auto|]. simpl.
  split; [done|].
  split; [apply Qcnot_lt_le; tauto|].
  split; [apply Qcnot_lt_le; tauto|].
  split; [|done]. by apply finite_all.
Qed.

(** X6: With an empty roster no settings can be saved: whatever is typed,
    [SettingsDialog.onSave] alerts and the bonus table stays as it is.
    This is the state of a first visit. *)
Theorem settings_need_a_player (Number : string → option number)
    (tempBonus : list string) (tempTopK : string) (s : App.state) :
  App.players s = [] →
  (App.SettingsDialog_onSave Number tempBonus tempTopK s).1 = s
  ∧ ((App.SettingsDialog_onSave Number tempBonus tempTopK s).2 = Some MsgBonus
     ∨ (App.SettingsDialog_onSave Number tempBonus tempTopK s).2 = Some MsgTopK).
Proof.
  intros Hp. unfold App.SettingsDialog_onSave. rewrite Hp.
  case_decide as Hb; [simpl; by auto|].
  destruct (Number tempTopK) as [k|]; [|simpl; by auto].
  case_decide as Hr; [simpl; by auto|].
  exfalso. apply Hr.
  destruct (Qclt_le_dec k 1) as [Hlt|Hge]; [by left|right].
  change (num 0 < k). rewrite num_0. by apply Qclt_le_trans with 1.
Qed.

Lemma settings_need_a_player_witness :
  (App.SettingsDialog_onSave decimalNumber ["20"; "10"; "-10"; "-20"] "4"
     (App.SettingsButton_onClick App.init)).1
  = App.SettingsButton_onClick App.init
  ∧ ((App.SettingsDialog_onSave decimalNumber ["20"; "10"; "-10"; "-20"] "4"
        (App.SettingsButton_onClick App.init)).2 = Some MsgBonus
     ∨ (App.SettingsDialog_onSave decimalNumber ["20"; "10"; "-10"; "-20"] "4"
          (App.SettingsButton_onClick App.init)).2 = Some MsgTopK).
Proof.
  apply (settings_need_a_player decimalNumber ["20"; "10"; "-10"; "-20"] "4"
           (App.SettingsButton_onClick App.init)).
  reflexivity.
Defined.

(** X7: After a successful addition [topK] lies between 1 and the size of
    the new roster, the range [SettingsDialog.onSave] accepts. *)
Theorem added_player_keeps_topK_in_range (trim : string → string)
    (checkPassword : string → bool) (now : N) (s : App.state) :
  trim (App.newPlayerName s) ≠ "" →
  checkPassword (trim (App.newPlayerName s)) = false →
  1 ≤ App.topK (App.handleConfirmAddPlayer trim checkPassword now s)
  ∧ App.topK (App.handleConfirmAddPlayer trim checkPassword now s)
    ≤ num (Z.of_nat (length (App.players
                               (App.handleConfirmAddPlayer trim checkPassword now s)))).
Proof.
  intros Hname Hpw. unfold App.handleConfirmAddPlayer.
  rewrite decide_False by done. rewrite Hpw. simpl.
  rewrite Math_ceil_half, length_app. simpl.
  rewrite <- Z2Qc_inj_1. split; apply num_le.
  - apply Z.div_le_lower_bound; lia.
  - apply Z.div_le_upper_bound; lia.
Qed.

Lemma added_player_keeps_topK_in_range_witness :
  1 ≤ App.topK (App.handleConfirmAddPlayer asciiTrim noPassword 6000 appState)
  ∧ App.topK (App.handleConfirmAddPlayer asciiTrim noPassword 6000 appState)
    ≤ num (Z.of_nat (length (App.players
                               (App.handleConfirmAddPlayer asciiTrim noPassword 6000
                                  appState)))).
Proof.
  apply (added_player_keeps_topK_in_range asciiTrim noPassword 6000 appState).
  - vm_compute. discriminate.
  - reflexivity.
Defined.

Lemma toInteger_num (z : Z) : JS.toInteger (num z) = z.
Proof.
  unfold JS.toInteger, num. case_decide; simpl.
  - apply Qfloor_Z.
  - apply Qceiling_Z.
Qed.

Lemma relIndex_nat (k len : nat) :
  JS.relIndex (num (Z.of_nat k)) len = (k `min` len)%nat.
Proof.
  unfold JS.relIndex. rewrite toInteger_num.
  destruct (Z.ltb_spec (Z.of_nat k) 0); lia.
Qed.

Lemma rows_indices {A} (f : nat → number) (h : bool) (l : list A) :
  index <$> imap (λ i x, mkRow (f i) x h) l = f <$> seq 0 (length l).
Proof. by rewrite fmap_imap, <- imap_seq_0. Qed.

Lemma rows_highlight {A} (f : nat → number) (h : bool) (l : list A) :
  Forall (λ r, highlight r = h) (imap (λ i x, mkRow (f i) x h) l).
Proof.
  apply Forall_forall. intros r Hr.
  apply elem_of_lookup_imap in Hr as (i & x & -> & _). done.
Qed.

(** X8: The player leaderboard for a whole-number [topK]: the rows are
    numbered 1, 2, ... without a gap across the divider, the first
    [min topK n] of the [n] rows are highlighted and the others are not -
    also when [topK] exceeds the roster, as it can after removals. *)
Theorem leaderboard_numbering {A} (k : nat) (items : list A) :
  index <$> ((App.Leaderboard (num (Z.of_nat k)) items false).1
             ++ (App.Leaderboard (num (Z.of_nat k)) items false).2)
  = (λ i, num (Z.of_nat i) + 1) <$> seq 0 (length items)
  ∧ length (App.Leaderboard (num (Z.of_nat k)) items false).1
    = (k `min` length items)%nat
  ∧ Forall (λ r, highlight r = true)
      (App.Leaderboard (num (Z.of_nat k)) items false).1
  ∧ Forall (λ r, highlight r = false)
      (App.Leaderboard (num (Z.of_nat k)) items false).2.
Proof.
  unfold App.Leaderboard. simpl.
  split; [|split; [|split; apply rows_highlight]].
  - rewrite fmap_app, !rows_indices.
    unfold JS.slice. rewrite relIndex_zero, !relIndex_nat, drop_0, Nat.sub_0_r.
    rewrite !length_take, !length_drop.
    set (n := length items).
    replace ((n - k `min` n) `min` (n - k `min` n))%nat
      with (n - k `min` n)%nat by lia.
    replace ((k `min` n) `min` n)%nat with (k `min` n)%nat by lia.
    replace (seq 0 n) with (seq 0 (k `min` n) ++ seq (k `min` n) (n - k `min` n))
      by (rewrite <- seq_app; f_equal; lia).
    rewrite fmap_app. f_equal.
    replace (seq (k `min` n) (n - k `min` n))
      with (Nat.add (k `min` n) <$> seq 0 (n - k `min` n))
      by (rewrite fmap_add_seq; f_equal; lia).
    rewrite <- list_fmap_compose.
    apply list_fmap_ext. intros j i Hi. simpl.
    apply lookup_seq in Hi as [-> Hi]. simpl.
    replace (k `min` n)%nat with k by lia.
    rewrite Nat2Z.inj_add. unfold num. rewrite Z2Qc_inj_add. ring.
  - rewrite length_imap. unfold JS.slice.
    rewrite relIndex_zero, relIndex_nat, drop_0, Nat.sub_0_r, length_take. lia.
Qed.

(** X9: The player board of the second snapshot, with its divider fixed
    after four rows, is the first snapshot's board at [topK = 4]. *)
Theorem fixed_divider_is_topK_four {A} (items : list A) :
  Grouped.Leaderboard items false = App.Leaderboard (num 4) items false.
Proof.
  unfold Grouped.Leaderboard, App.Leaderboard. simpl. f_equal.
  apply imap_ext. intros i x _. f_equal.
  unfold num. rewrite <- Z2Qc_inj_1, <- !Z2Qc_inj_add. f_equal. lia.
Qed.

(** ** How the stable sort composes with edits of the list *)

Section SortComposes.

Context {A : Type} (key : A → number).

Local Abbreviation desc := (λ a b : A, key b - key a).
Local Abbreviation ordered := (StronglySorted (λ a b : A, key b ≤ key a)).

Lemma sort_insert_top (x : A) (l : list A) :
  Forall (λ y, key y ≤ key x) l → JS.sort_insert desc x l = x :: l.
Proof.
  destruct 1 as [|y l Hy _]; [done|]. by apply sort_insert_front.
Qed.

(** A list whose keys are all equal is left as it is. *)
Lemma sort_constant (v : number) (l : list A) :
  Forall (λ y, key y = v) l → JS.sort desc l = l.
Proof.
  induction 1 as [|x l Hx Hl IH]; [done|].
  simpl. fold (JS.sort desc l). rewrite IH.
  apply sort_insert_top. eapply Forall_impl; [exact Hl|].
  intros y Hy. simpl. rewrite Hx, Hy. apply Qcle_refl.
Qed.

Lemma ordered_head_bound (x y : A) (l : list A) :
  ordered (y :: l) → key y ≤ key x → Forall (λ z, key z ≤ key x) (y :: l).
Proof.
  intros Hl Hy. apply StronglySorted_inv in Hl as [_ Hall].
  constructor; [done|].
  eapply Forall_impl; [exact Hall|].
  intros z Hz. simpl in *. by apply Qcle_trans with (key y).
Qed.

Lemma sort_insert_filter (P : A → Prop) `{!∀ x, Decision (P x)}
    (x : A) (l : list A) :
  ordered l →
  filter P (JS.sort_insert desc x l)
  = if decide (P x) then JS.sort_insert desc x (filter P l) else filter P l.
Proof.
  induction 1 as [|y l Hl IH Hy]; [simpl; rewrite filter_cons; by case_decide|].
  destruct (decide (key x < key y)) as [Hlt|Hge].
  - rewrite sort_insert_behind by done.
    rewrite !(filter_cons _ y), IH.
    destruct (decide (P y)); [|done].
    destruct (decide (P x)); [|done].
    by rewrite sort_insert_behind.
  - apply Qcnot_lt_le in Hge.
    rewrite sort_insert_front by done.
    rewrite (filter_cons _ x).
    destruct (decide (P x)); [|done].
    rewrite sort_insert_top; [done|].
    apply Forall_forall. intros z Hz.
    apply list_elem_of_filter in Hz as [_ Hz].
    assert (Forall (λ z, key z ≤ key x) (y :: l)) as Hall
      by (apply ordered_head_bound; [by constructor|done]).
    by apply (proj1 (Forall_forall _ _) Hall).
Qed.

(** Sorting and then dropping entries is sorting what is kept. *)
Lemma sort_filter (P : A → Prop) `{!∀ x, Decision (P x)} (l : list A) :
  filter P (JS.sort desc l) = JS.sort desc (filter P l).
Proof.
  induction l as [|x l IH]; [done|].
  simpl. fold (JS.sort desc l).
  rewrite sort_insert_filter by apply sort_ordered.
  rewrite filter_cons, IH. by destruct (decide (P x)).
Qed.

(** An edit of the entries that keeps every key commutes with the sort. *)
Lemma sort_fmap (f : A → A) (l : list A) :
  (∀ x, key (f x) = key x) →
  JS.sort desc (f <$> l) = f <$> JS.sort desc l.
Proof.
  intros Hf.
  assert (∀ x k, JS.sort_insert desc (f x) (f <$> k)
                 = f <$> JS.sort_insert desc x k) as Hins.
  { intros x k. induction k as [|y k IH]; [done|].
    csimpl. rewrite !Hf. case_decide; csimpl; [by rewrite IH|done]. }
  induction l as [|x l IH]; [done|].
  csimpl. fold (JS.sort desc (f <$> l)) (JS.sort desc l).
  by rewrite IH, Hins.
Qed.

End SortComposes.

(** ** Roster edits and the player leaderboard (first snapshot) *)

(** X10: Renaming a player or changing an avatar moves nobody on the
    leaderboard: the board lists the same ids with the same scores in the
    same order, and ids, ledger and rounds are untouched; an id that no
    player has changes nothing at all. *)
Theorem update_keeps_board (id : string) (patch : playerPatch) (s : App.state) :
  Item.key <$> playerBoard (App.players (App.handleUpdatePlayer id patch s))
                 (App.playerScores (App.handleUpdatePlayer id patch s))
  = Item.key <$> playerBoard (App.players s) (App.playerScores s)
  ∧ Item.score <$> playerBoard (App.players (App.handleUpdatePlayer id patch s))
                     (App.playerScores (App.handleUpdatePlayer id patch s))
    = Item.score <$> playerBoard (App.players s) (App.playerScores s)
  ∧ Player.id <$> App.players (App.handleUpdatePlayer id patch s)
    = Player.id <$> App.players s
  ∧ App.playerScores (App.handleUpdatePlayer id patch s) = App.playerScores s
  ∧ App.rounds (App.handleUpdatePlayer id patch s) = App.rounds s
  ∧ (id ∉ Player.id <$> App.players s → App.handleUpdatePlayer id patch s = s).
Proof.
  set (g := λ x : Item.t,
         if decide (Item.key x = id) then
           match patch with
           | PatchName v => Item.mk (Item.key x) v (Item.avatar x) (Item.score x)
           | PatchAvatar v => Item.mk (Item.key x) (Item.name x) v (Item.score x)
           end
         else x).
  assert (∀ x, Item.score (g x) = Item.score x) as Hscore
    by (intros x; unfold g; case_decide; by destruct patch).
  assert (∀ x, Item.key (g x) = Item.key x) as Hkey
    by (intros x; unfold g; case_decide; by destruct patch).
  assert (playerBoard (App.players (App.handleUpdatePlayer id patch s))
            (App.playerScores (App.handleUpdatePlayer id patch s))
          = g <$> playerBoard (App.players s) (App.playerScores s)) as Hboard.
  { unfold playerBoard. rewrite <- (sort_fmap Item.score g) by done.
    f_equal. simpl. unfold boardItems, updatePlayers.
    rewrite <- !list_fmap_compose. apply list_fmap_ext. intros _ p _. simpl.
    unfold g. simpl. case_decide; [|done]. by destruct patch. }
  split; [|split; [|split; [|split; [done|split; [done|]]]]].
  - rewrite Hboard, <- list_fmap_compose. apply list_fmap_ext.
    intros i x _. apply Hkey.
  - rewrite Hboard, <- list_fmap_compose. apply list_fmap_ext.
    intros i x _. apply Hscore.
  - simpl. unfold updatePlayers. rewrite <- list_fmap_compose.
    apply list_fmap_ext. intros _ p _. simpl. case_decide; [|done].
    by destruct patch.
  - intros Hid. unfold App.handleUpdatePlayer.
    replace (updatePlayers id patch (App.players s)) with (App.players s);
      [by destruct s|].
    unfold updatePlayers. rewrite <- (list_fmap_id (App.players s)) at 1.
    apply list_fmap_ext. intros i p Hp. simpl.
    rewrite decide_False; [done|]. intros <-. apply Hid.
    apply list_elem_of_fmap_2. by apply list_elem_of_lookup_2 in Hp.
Qed.

Lemma boardItems_remove (id : string) (players : list Player.t)
    (scores : gmap string number) :
  boardItems (filter (λ pl, Player.id pl ≠ id) players) (delete id scores)
  = filter (λ x, Item.key x ≠ id) (boardItems players scores).
Proof.
  unfold boardItems. induction players as [|p players IH]; [done|].
  rewrite fmap_cons, !filter_cons. simpl.
  destruct (decide (Player.id p ≠ id)) as [Hne|]; [|done].
  rewrite fmap_cons, IH. by rewrite lookup_delete_ne.
Qed.

(** X11: Removing a player takes its row (every row with its id) off the
    leaderboard and keeps the others in their order; the ledger entry is
    deleted, while the rounds and [topK] stay as they are - the rounds
    keep naming the removed id. *)
Theorem remove_takes_row_off (id : string) (s : App.state) :
  playerBoard (App.players (App.removePlayer id true s))
    (App.playerScores (App.removePlayer id true s))
  = filter (λ x, Item.key x ≠ id) (playerBoard (App.players s) (App.playerScores s))
  ∧ App.playerScores (App.removePlayer id true s) !! id = None
  ∧ (∀ p, p ≠ id →
       App.playerScores (App.removePlayer id true s) !! p = App.playerScores s !! p)
  ∧ App.rounds (App.removePlayer id true s) = App.rounds s
  ∧ App.topK (App.removePlayer id true s) = App.topK s.
Proof.
  split; [|split; [|split; [|done]]].
  - simpl. unfold playerBoard.
    by rewrite boardItems_remove, (sort_filter Item.score).
  - simpl. apply lookup_delete_eq.
  - intros p Hp. simpl. by apply lookup_delete_ne.
Qed.

Lemma zeroScores_roster (players : list Player.t) (p : string) :
  zeroScores players !! p
  = if decide (p ∈ Player.id <$> players) then Some 0 else None.
Proof.
  case_decide as Hp.
  - apply list_elem_of_fmap in Hp as (pl & -> & Hpl).
    destruct (zeroScores_is_Some players pl Hpl) as [v Hv].
    rewrite Hv. by apply zeroScores_lookup in Hv as ->.
  - destruct (zeroScores players !! p) as [v|] eqn:Hv; [|done].
    exfalso. apply Hp. apply fromEntries_Some in Hv.
    apply list_elem_of_fmap in Hv as (pl & Heq & Hpl). injection Heq as -> _.
    by apply list_elem_of_fmap_2.
Qed.

(** X12: A confirmed [resetAll] empties the rounds and rebuilds the ledger
    from the roster: exactly the roster's ids have an entry, each [0]
    (entries of ids outside the roster are dropped), and the leaderboard
    shows the players in roster order; roster, bonus table and [topK] are
    kept.  Without the confirmation nothing changes. *)
Theorem reset_rebuilds_ledger (s : App.state) :
  App.rounds (App.resetAll true s) = []
  ∧ (∀ p, App.playerScores (App.resetAll true s) !! p
          = if decide (p ∈ Player.id <$> App.players s) then Some 0 else None)
  ∧ Item.key <$> playerBoard (App.players (App.resetAll true s))
                   (App.playerScores (App.resetAll true s))
    = Player.id <$> App.players s
  ∧ App.players (App.resetAll true s) = App.players s
  ∧ App.rankBonus (App.resetAll true s) = App.rankBonus s
  ∧ App.topK (App.resetAll true s) = App.topK s
  ∧ App.resetAll false s = s.
Proof.
  split; [done|]. split; [intros p; apply zeroScores_roster|].
  split; [|done]. simpl. unfold playerBoard.
  rewrite (sort_constant Item.score 0).
  - unfold boardItems. rewrite <- list_fmap_compose. by apply list_fmap_ext.
  - unfold boardItems. apply Forall_fmap, Forall_forall. intros pl Hpl. simpl.
    rewrite zeroScores_roster, decide_True; [done|].
    by apply list_elem_of_fmap_2.
Qed.

(** ** The round history *)

Lemma roundHistory_snoc (rounds : list Round.t) (r : Round.t) :
  roundHistory (rounds ++ [r])
  = (num (Z.of_nat (S (length rounds))), r) :: roundHistory rounds.
Proof.
  unfold roundHistory. rewrite reverse_snoc, length_app. simpl.
  replace (length rounds + 1)%nat with (S (length rounds)) by lia.
  f_equal.
  - f_equal. change (Z.of_nat 0) with 0%Z. rewrite num_0. ring.
  - apply imap_ext. intros i x _. simpl. f_equal.
    rewrite !num_succ. ring.
Qed.

Lemma roundHistory_rounds (rounds : list Round.t) :
  (roundHistory rounds).*2 = reverse rounds.
Proof.
  induction rounds as [|r rounds IH] using rev_ind; [done|].
  rewrite roundHistory_snoc, reverse_snoc. csimpl. by rewrite IH.
Qed.

(** X13: The history lists the rounds newest first, and the round committed
    as the [k+1]-th carries the number [k+1]: a commit puts its round on
    top with the next number and leaves every earlier line as it was. *)
Theorem history_numbers_rounds (rounds : list Round.t) :
  (∀ r, roundHistory (rounds ++ [r])
        = (num (Z.of_nat (S (length rounds))), r) :: roundHistory rounds)
  ∧ (roundHistory rounds).*2 = reverse rounds
  ∧ (∀ k r, rounds !! k = Some r →
       roundHistory rounds !! (length rounds - S k)%nat
       = Some (num (Z.of_nat (S k)), r)).
Proof.
  split; [intros r; apply roundHistory_snoc|].
  split; [apply roundHistory_rounds|].
  induction rounds as [|x rounds IH] using rev_ind; intros k r Hk; [done|].
  rewrite roundHistory_snoc, length_app. simpl.
  destruct (decide (k < length rounds)%nat) as [Hlt|Hge].
  - rewrite lookup_app_l in Hk by done.
    replace (length rounds + 1 - S k)%nat with (S (length rounds - S k)) by lia.
    simpl. by apply IH.
  - pose proof (lookup_lt_Some _ _ _ Hk) as Hlen.
    rewrite length_app in Hlen. simpl in Hlen.
    assert (k = length rounds) as -> by lia.
    rewrite lookup_app_r, Nat.sub_diag in Hk by done.
    injection Hk as ->.
    by replace (length rounds + 1 - S (length rounds))%nat with 0%nat by lia.
Qed.

Lemma playersById_removed (id : string) (players : list Player.t) :
  playersById (filter (λ pl, Player.id pl ≠ id) players) !! id = None.
Proof.
  destruct (playersById _ !! id) as [pl|] eqn:H; [|done].
  exfalso. apply fromEntries_Some, list_elem_of_fmap in H as (pl' & Heq & Hin).
  injection Heq as Hid _. apply list_elem_of_filter in Hin as [Hne _].
  by apply Hne.
Qed.

Lemma playersById_is_Some (players : list Player.t) (p : string) :
  p ∈ Player.id <$> players → is_Some (playersById players !! p).
Proof.
  intros H. apply fromEntries_is_Some. by rewrite <- list_fmap_compose.
Qed.

(** X14: First snapshot: removing a player who sat in a committed round keeps
    the round, and the history then looks the removed id up in
    [playersById] and gets [undefined] for it - the value [AvatarSmall]
    dereferences. *)
Theorem removed_player_unresolved_in_history (id : string) (s : App.state)
    (r : Round.t) (d : Breakdown.t) :
  r ∈ App.rounds s → d ∈ Round.breakdown r → Breakdown.pid d = id →
  App.rounds (App.removePlayer id true s) = App.rounds s
  ∧ playersById (App.players (App.removePlayer id true s)) !! id = None
  ∧ Exists (λ line, None ∈ line)
      (historyPlayers (App.players (App.removePlayer id true s))
         (App.rounds (App.removePlayer id true s))).
Proof.
  intros Hr Hd Hid. split; [done|]. split; [apply playersById_removed|].
  simpl. unfold historyPlayers. apply Exists_fmap, Exists_exists.
  assert (r ∈ (roundHistory (App.rounds s)).*2) as Hin
    by (rewrite roundHistory_rounds; by apply elem_of_reverse).
  apply list_elem_of_fmap in Hin as (line & -> & Hline).
  exists line. split; [done|].
  apply list_elem_of_fmap. exists d. split; [|done].
  by rewrite Hid, playersById_removed.
Qed.

Lemma removed_player_unresolved_in_history_witness :
  let s := App.run decimalNumber asciiTrim noPassword (take 14 appEvents) App.init in
  let r := default (Round.mk "" 0 [] [] []) (App.rounds s !! 0%nat) in
  let d := default (Breakdown.mk "" 0 0 0 0) (Round.breakdown r !! 3%nat) in
  (r ∈ App.rounds s ∧ d ∈ Round.breakdown r ∧ Breakdown.pid d = "p4000")
  ∧ Exists (λ line, None ∈ line)
      (historyPlayers (App.players (App.removePlayer "p4000" true s))
         (App.rounds (App.removePlayer "p4000" true s))).
Proof.
  intros s r d.
  assert (r ∈ App.rounds s ∧ d ∈ Round.breakdown r ∧ Breakdown.pid d = "p4000")
    as H by (apply (bool_decide_unpack _); vm_compute; reflexivity).
  split; [exact H|].
  destruct H as (Hr & Hd & Hid).
  exact (proj2 (proj2 (removed_player_unresolved_in_history "p4000" s r d Hr Hd Hid))).
Defined.

(** ** The ledger and the history of the second snapshot *)

Section GroupedLedger.

Context (Number : string → option number).

Lemma grouped_seatWithRaw_pids (seat raw : list string) :
  pid <$> Grouped.seatWithRaw Number seat raw = seat.
Proof.
  unfold Grouped.seatWithRaw. apply list_eq; intros i.
  rewrite list_lookup_fmap, list_lookup_imap. by destruct (seat !! i).
Qed.

Lemma zeroScores_orZero (players : list Player.t) (p : string) :
  JS.orZero (zeroScores players !! p) = 0.
Proof. rewrite zeroScores_roster. by case_decide. Qed.



Lemma foldl_scores (scores : gmap string number) (a : number) (l : list string) :
  foldl (λ acc p, acc + JS.orZero (scores !! p)) a l
  = a + sumNumbers ((λ p, JS.orZero (scores !! p)) <$> l).
Proof.
  revert a. induction l as [|x l IH]; intros a; csimpl; [ring|].
  rewrite IH. ring.
Qed.


Lemma grouped_seats_step (ev : Grouped.event) (s : Grouped.state) :
  Grouped.offered ev s → Grouped.seatsInRoster s →
  Grouped.seatsInRoster (Grouped.handle Number ev s).
Proof.
  unfold Grouped.seatsInRoster. intros Hoff Hs.
  destruct ev as [[]|[]|id patch| | |seat rw now| | |tempBonus| | |enabled draft];
    simpl; try done.
  - replace (Player.id <$> updatePlayers id patch (Grouped.players s))
      with (Player.id <$> Grouped.players s); [done|].
    unfold updatePlayers. rewrite <- list_fmap_compose.
    apply list_fmap_ext. intros i p _. simpl. case_decide; [|done].
    by destruct patch.
  - destruct Hoff as (_ & Hlen & _ & Hseat).
    pose proof (grouped_validate_cases Number seat rw Hlen) as Hv.
    unfold Grouped.RoundDialog_onSave.
    destruct (Grouped.validate Number seat rw); [done|].
    destruct Hv as [[_ Hne] _]. simpl.
    apply Forall_app. split; [done|]. constructor; [|done]. simpl.
    apply Forall_forall. intros d Hd.
    assert (Breakdown.pid d ∈ seat) as Hin.
    { rewrite <- (grouped_seatWithRaw_pids seat rw),
        <- (computeRoundDeltas_pids _ (Grouped.rankBonus s)).
      by apply list_elem_of_fmap_2. }
    destruct (proj1 (Forall_forall _ _) Hseat _ Hin) as [Heq|?]; [|done].
    rewrite Heq in Hin. by destruct Hne.
  - unfold Grouped.SettingsDialog_onSave. by case_decide.
  - unfold Grouped.click. by destruct (Grouped.GroupSetupButton_disabled s).
  - unfold Grouped.GroupSetupDialog_onSave. by case_decide.
Qed.

(** X16: Second snapshot, which cannot remove a player: in every state the
    page reaches, every entry of the round history resolves to a player
    of the roster, so [AvatarSmall] never receives [undefined] there. *)
Theorem grouped_history_resolves (s : Grouped.state) :
  Grouped.reachable Number s →
  Forall (Forall is_Some) (historyPlayers (Grouped.players s) (Grouped.rounds s)).
Proof.
  intros Hs.
  assert (Grouped.seatsInRoster s) as H.
  { induction Hs as [|s ev _ IH Hoff]; [by constructor|].
    by apply grouped_seats_step. }
  unfold historyPlayers. apply Forall_fmap, Forall_forall.
  intros line Hline. simpl. apply Forall_fmap, Forall_forall. intros d Hd.
  simpl. apply playersById_is_Some.
  assert (line.2 ∈ Grouped.rounds s) as Hr.
  { apply elem_of_reverse. rewrite <- roundHistory_rounds.
    by apply list_elem_of_fmap_2. }
  unfold Grouped.seatsInRoster in H.
  by apply (proj1 (Forall_forall _ _) (proj1 (Forall_forall _ _) H _ Hr)).
Qed.

End GroupedLedger.

Lemma grouped_history_resolves_witness :
  Forall (Forall is_Some)
    (historyPlayers (Grouped.players groupedState) (Grouped.rounds groupedState)).
Proof.
  apply (grouped_history_resolves decimalNumber). apply groupedState_reachable.
Defined.

(** ** The group setup dialog (second snapshot) *)

Lemma toggleMember_ids (gid pid : string) (draft : list Group.t) :
  Group.id <$> Grouped.toggleMember gid pid draft = Group.id <$> draft
  ∧ Group.name <$> Grouped.toggleMember gid pid draft = Group.name <$> draft.
Proof.
  unfold Grouped.toggleMember. rewrite <- !list_fmap_compose.
  split; apply list_fmap_ext; intros i g _; simpl; by case_decide.
Qed.

Lemma toggleMember_other (gid pid : string) (draft : list Group.t) :
  gid ∉ Group.id <$> draft → Grouped.toggleMember gid pid draft = draft.
Proof.
  intros H. unfold Grouped.toggleMember.
  rewrite <- (list_fmap_id draft) at 2.
  apply list_fmap_ext. intros i g Hg. simpl.
  rewrite decide_True; [done|]. intros Heq. apply H. rewrite <- Heq.
  apply list_elem_of_fmap_2. by apply list_elem_of_lookup_2 in Hg.
Qed.

Lemma elem_of_members (x : string) (gs : list Group.t) :
  x ∈ concat (Group.members <$> gs) ↔ Exists (λ g, x ∈ Group.members g) gs.
Proof.
  induction gs as [|g gs IH]; csimpl.
  - rewrite elem_of_nil, Exists_nil. tauto.
  - rewrite elem_of_app, Exists_cons, IH. tauto.
Qed.

Lemma toggleMember_members (gid pid x : string) (draft : list Group.t) :
  x ∈ concat (Group.members <$> Grouped.toggleMember gid pid draft) →
  x ∈ concat (Group.members <$> draft) ∨ x = pid.
Proof.
  induction draft as [|g draft IH]; csimpl; [by left|].
  rewrite !elem_of_app. intros [Hx|Hx].
  - case_decide; [by left; left|]. simpl in Hx.
    case_decide.
    + apply list_elem_of_filter in Hx as [_ Hx]. by left; left.
    + case_decide; [|by left; left].
      apply elem_of_app in Hx as [Hx|Hx]; [by left; left|].
      apply list_elem_of_singleton in Hx. by right.
  - destruct (IH Hx) as [?|?]; [by left; right|by right].
Qed.

(** One enabled check box keeps the draft paired up. *)
Lemma pairedUp_toggle (gid pid : string) (draft : list Group.t) :
  Grouped.pairedUp draft → Grouped.isPicked pid gid draft = false →
  Grouped.pairedUp (Grouped.toggleMember gid pid draft).
Proof.
  intros (Hid & Hlen & Hnd) Hpick.
  apply bool_decide_eq_false in Hpick.
  split; [by rewrite (proj1 (toggleMember_ids gid pid draft))|]. split.
  - unfold Grouped.toggleMember. apply Forall_fmap.
    eapply Forall_impl; [exact Hlen|]. intros g Hg. simpl in *.
    case_decide; [done|]. simpl. case_decide.
    + pose proof (length_filter (λ x, x ≠ pid) (Group.members g)). lia.
    + case_decide; [|done]. rewrite length_app. simpl. lia.
  - clear Hlen. induction draft as [|g draft IH]; [done|].
    csimpl in *. apply NoDup_cons in Hid as [Hg Hid].
    apply NoDup_app in Hnd as (Hmem & Hdisj & Hrest).
    rewrite Exists_cons in Hpick.
    case_decide as Hgid.
    + apply NoDup_app. split; [done|]. split.
      * intros x Hx Hx'. apply toggleMember_members in Hx' as [Hx'| ->].
        -- by apply (Hdisj x).
        -- apply Hpick. by left.
      * apply IH; [done|done|]. intros H. apply Hpick. by right.
    + assert (Group.id g = gid) as Hg' by (by destruct (decide (Group.id g = gid))).
      rewrite toggleMember_other by (by rewrite <- Hg').
      assert (pid ∉ concat (Group.members <$> draft)) as Hpid.
      { intros Hin. apply Hpick. right.
        apply elem_of_members, Exists_exists in Hin as (g' & Hg'1 & Hg'2).
        apply Exists_exists. exists g'. split; [done|]. split; [|done].
        intros Heq. apply Hg. rewrite Hg', <- Heq.
        by apply list_elem_of_fmap_2. }
      simpl. apply NoDup_app. split; [|split; [|done]].
      * case_decide; [by apply NoDup_filter|].
        case_decide; [|done].
        apply NoDup_app. split; [done|]. split; [|apply NoDup_singleton].
        intros x Hx Hx'. apply list_elem_of_singleton in Hx'. by subst.
      * intros x Hx. case_decide.
        -- apply list_elem_of_filter in Hx as [_ Hx]. by apply Hdisj.
        -- case_decide; [|by apply Hdisj].
           apply elem_of_app in Hx as [Hx|Hx]; [by apply Hdisj|].
           apply list_elem_of_singleton in Hx. by subst.
Qed.

Lemma pairedUp_reach (start draft : list Group.t) :
  Grouped.pairedUp start → Grouped.draftReach start draft →
  Grouped.pairedUp draft ∧ Group.id <$> draft = Group.id <$> start.
Proof.
  intros Hstart. induction 1 as [|draft gid pid _ [IH1 IH2] Hpick]; [done|].
  split; [by apply pairedUp_toggle|].
  by rewrite (proj1 (toggleMember_ids gid pid draft)).
Qed.

(** X17: Whatever enabled check boxes are ticked and unticked in the group
    dialog, a draft that starts paired up - group ids distinct, at most
    two members in a group, nobody listed twice - stays paired up, and
    the groups keep their ids and their names. *)
Theorem toggle_keeps_pairs (start draft : list Group.t) :
  Grouped.pairedUp start → Grouped.draftReach start draft →
  Grouped.pairedUp draft
  ∧ Group.id <$> draft = Group.id <$> start
  ∧ Group.name <$> draft = Group.name <$> start.
Proof.
  intros Hstart Hreach.
  split; [by apply (pairedUp_reach start)|].
  split; [by apply (pairedUp_reach start)|].
  induction Hreach as [|draft gid pid _ IH Hpick]; [done|].
  by rewrite (proj2 (toggleMember_ids gid pid draft)).
Qed.

Lemma defaultGroups_pairedUp : Grouped.pairedUp Grouped.DEFAULT_GROUPS.
Proof.
  split; [|split].
  - apply (bool_decide_unpack _). vm_compute. reflexivity.
  - repeat constructor.
  - constructor.
Defined.

Lemma pairedDraft_reach : Grouped.draftReach Grouped.DEFAULT_GROUPS pairedDraft.
Proof.
  cbv [pairedDraft foldl fst snd].
  repeat (apply Grouped.draft_toggle; [|vm_compute; reflexivity]).
  apply Grouped.draft_start.
Defined.

Lemma toggle_keeps_pairs_witness :
  Grouped.pairedUp pairedDraft
  ∧ Group.id <$> pairedDraft = Group.id <$> Grouped.DEFAULT_GROUPS
  ∧ Group.name <$> pairedDraft = Group.name <$> Grouped.DEFAULT_GROUPS.
Proof.
  apply (toggle_keeps_pairs Grouped.DEFAULT_GROUPS pairedDraft).
  - apply defaultGroups_pairedUp.
  - apply pairedDraft_reach.
Defined.

Lemma foldl_lengths (gs : list Group.t) (a : nat) :
  foldl (λ a g, (a + length (Group.members g))%nat) a gs
  = (a + length (concat (Group.members <$> gs)))%nat.
Proof.
  revert a. induction gs as [|g gs IH]; intros a; csimpl; [lia|].
  rewrite IH, length_app. lia.
Qed.

(** X18: A save with grouping enabled that the dialog accepts, on a draft
    ticked together from four paired-up groups, installs four groups of
    exactly two members each, eight different players in all - what the
    alert of the rejected case asks for. *)
Theorem accepted_groups_are_pairs (start draft : list Group.t) (s : Grouped.state) :
  Grouped.pairedUp start → length start = 4%nat →
  Grouped.draftReach start draft →
  (Grouped.GroupSetupDialog_onSave true draft s).2 = None →
  Grouped.grouping (Grouped.GroupSetupDialog_onSave true draft s).1 = (true, draft)
  ∧ Forall (λ g, length (Group.members g) = 2%nat) draft
  ∧ NoDup (concat (Group.members <$> draft))
  ∧ length (concat (Group.members <$> draft)) = 8%nat.
Proof.
  intros Hstart Hfour Hreach Hok.
  destruct (pairedUp_reach start draft Hstart Hreach) as [(_ & Hlen & Hnd) Hids].
  assert (length draft = 4%nat) as Hdraft.
  { rewrite <- (length_fmap Group.id), Hids, length_fmap. exact Hfour. }
  unfold Grouped.GroupSetupDialog_onSave in *.
  rewrite foldl_lengths in *. simpl in *.
  case_decide as Htotal; [done|].
  assert (length (concat (Group.members <$> draft)) = 8%nat) as Height
    by (destruct (decide (length (concat (Group.members <$> draft)) = 8%nat));
        [done|exfalso; by apply Htotal]).
  split; [done|]. split; [|done].
  destruct draft as [|a [|b [|c [|d [|]]]]]; try done.
  csimpl in Height. rewrite !length_app in Height. simpl in Height.
  apply Forall_cons in Hlen as [Ha Hlen]. apply Forall_cons in Hlen as [Hb Hlen].
  apply Forall_cons in Hlen as [Hc Hlen]. apply Forall_cons in Hlen as [Hd _].
  repeat constructor; lia.
Qed.

Lemma accepted_groups_are_pairs_witness :
  Grouped.grouping
    (Grouped.GroupSetupDialog_onSave true pairedDraft groupedState).1
  = (true, pairedDraft)
  ∧ Forall (λ g, length (Group.members g) = 2%nat) pairedDraft
  ∧ NoDup (concat (Group.members <$> pairedDraft))
  ∧ length (concat (Group.members <$> pairedDraft)) = 8%nat.
Proof.
  apply (accepted_groups_are_pairs Grouped.DEFAULT_GROUPS pairedDraft groupedState).
  - apply defaultGroups_pairedUp.
  - reflexivity.
  - apply pairedDraft_reach.
  - reflexivity.
Defined.

(** ** The group leaderboard (second snapshot) *)

Lemma concat_member_scores (f : string → number) (gs : list Group.t) :
  concat ((λ g, f <$> Group.members g) <$> gs)
  = f <$> concat (Group.members <$> gs).
Proof.
  induction gs as [|g gs IH]; csimpl; [done|].
  by rewrite fmap_app, IH.
Qed.

(** X19: When grouping is enabled and the groups split the roster - every
    player in exactly one group - every score of the player leaderboard
    is a summand of exactly one group score: each group score is the sum,
    taken from 0 in member order, of its members' ledger entries (an
    absent entry counting 0), the rows of the group leaderboard carry
    these group scores, and the summands of all groups together are the
    scores of the player leaderboard, each once.  (The two totals are
    therefore sums of the same numbers, in different orders.) *)
Theorem groups_count_each_score_once (s : Grouped.state) :
  Grouped.groupsEnabled s = true →
  concat (Group.members <$> Grouped.groups s) ≡ₚ Player.id <$> Grouped.players s →
  Forall (λ g, GroupScore.score g
               = foldl Qcplus 0
                   ((λ p, JS.orZero (Grouped.playerScores s !! p))
                      <$> GroupScore.members g))
    (Grouped.groupScores s)
  ∧ GroupItem.score <$> Grouped.groupBoard s
    ≡ₚ GroupScore.score <$> Grouped.groupScores s
  ∧ concat ((λ g, (λ p, JS.orZero (Grouped.playerScores s !! p))
                    <$> GroupScore.members g) <$> Grouped.groupScores s)
    ≡ₚ Item.score <$> playerBoard (Grouped.players s) (Grouped.playerScores s).
Proof.
  intros Hen Hsplit. split; [|split].
  - unfold Grouped.groupScores. rewrite Hen. simpl.
    apply Forall_fmap, Forall_forall. intros g _. simpl.
    generalize (0 : number).
    induction (Group.members g) as [|p l IH]; intros a; [done|].
    csimpl. apply IH.
  - unfold Grouped.groupBoard. rewrite Hen. simpl.
    rewrite (fmap_Permutation GroupItem.score _ _ (sort_perm GroupItem.score _)).
    by rewrite <- list_fmap_compose.
  - unfold playerBoard.
    rewrite (fmap_Permutation Item.score _ _ (sort_perm Item.score _)).
    unfold Grouped.groupScores, boardItems. rewrite Hen. simpl.
    rewrite <- !list_fmap_compose.
    change (concat ((λ g, (λ p, JS.orZero (Grouped.playerScores s !! p))
                            <$> Group.members g) <$> Grouped.groups s)
            ≡ₚ (λ p, JS.orZero (Grouped.playerScores s !! Player.id p))
                 <$> Grouped.players s).
    rewrite concat_member_scores.
    rewrite (fmap_Permutation _ _ _ Hsplit).
    by rewrite <- list_fmap_compose.
Qed.

Lemma groups_count_each_score_once_witness :
  let s := (Grouped.GroupSetupDialog_onSave true pairedDraft groupedState).1 in
  concat ((λ g, (λ p, JS.orZero (Grouped.playerScores s !! p))
                  <$> GroupScore.members g) <$> Grouped.groupScores s)
  ≡ₚ Item.score <$> playerBoard (Grouped.players s) (Grouped.playerScores s).
Proof.
  intros s. apply (groups_count_each_score_once s).
  - reflexivity.
  - vm_compute. reflexivity.
Defined.

(** X20: The group leaderboard is empty while grouping is disabled.  When it
    is enabled it has one row per group, each with the group's id, the
    sum of its members' ledger entries (an absent entry counting 0) and
    its members looked up in the roster; the rows are ordered by score,
    largest first, and groups of equal score keep the order of the
    groups. *)
Theorem groupBoard_order (s : Grouped.state) :
  (Grouped.groupsEnabled s = false →
     Grouped.groupScores s = [] ∧ Grouped.groupBoard s = [])
  ∧ (Grouped.groupsEnabled s = true →
     Grouped.groupBoard s
     ≡ₚ (λ g, GroupItem.mk (Group.id g)
                ((λ p, playersById (Grouped.players s) !! p) <$> Group.members g)
                (sumNumbers ((λ p, JS.orZero (Grouped.playerScores s !! p))
                               <$> Group.members g)))
          <$> Grouped.groups s
     ∧ StronglySorted (λ a b, GroupItem.score b ≤ GroupItem.score a)
         (Grouped.groupBoard s)
     ∧ ∀ v, GroupItem.key <$> filter (λ x, GroupItem.score x = v) (Grouped.groupBoard s)
            = Group.id <$>
                filter (λ g, sumNumbers ((λ p, JS.orZero (Grouped.playerScores s !! p))
                                           <$> Group.members g) = v)
                  (Grouped.groups s)).
Proof.
  split.
  - intros Hen. unfold Grouped.groupBoard, Grouped.groupScores. by rewrite Hen.
  - intros Hen.
    assert ((λ g, GroupItem.mk (GroupScore.id g)
                    ((λ p, playersById (Grouped.players s) !! p) <$> GroupScore.members g)
                    (GroupScore.score g)) <$> Grouped.groupScores s
            = (λ g, GroupItem.mk (Group.id g)
                      ((λ p, playersById (Grouped.players s) !! p) <$> Group.members g)
                      (sumNumbers ((λ p, JS.orZero (Grouped.playerScores s !! p))
                                     <$> Group.members g)))
                <$> Grouped.groups s) as Hitems.
    { unfold Grouped.groupScores. rewrite Hen. simpl.
      rewrite <- list_fmap_compose. apply list_fmap_ext. intros i g _. simpl.
      f_equal. rewrite foldl_scores. ring. }
    unfold Grouped.groupBoard. rewrite Hen. simpl. rewrite Hitems.
    split; [apply (sort_perm GroupItem.score)|].
    split; [apply (sort_ordered GroupItem.score)|].
    intros v. rewrite (sort_ties GroupItem.score). clear Hitems.
    induction (Grouped.groups s) as [|g gs IH]; [done|].
    rewrite fmap_cons, !filter_cons. simpl.
    case_decide; csimpl; by rewrite IH.
Qed.

(** ** The default-player screen (first snapshot) *)

(** X21: The import of default players: the selected default players join the
    roster in the order of the default list, whatever the order of the
    clicks; each gets the ledger entry 0 - also when the id already had
    one - and every other entry is kept; the rounds are untouched, the
    divider moves to half the new roster, rounded up.  A selected player
    that is in the roster already is in it twice afterwards. *)
Theorem sharky_import_outcome (s : App.state) :
  App.players (App.sharkyDone s)
  = App.players s
    ++ filter (λ p, Player.id p ∈ App.sharkySelected s) App.DEFAULT_PLAYERS
  ∧ (∀ p, p ∈ App.sharkySelected s → p ∈ Player.id <$> App.DEFAULT_PLAYERS →
       App.playerScores (App.sharkyDone s) !! p = Some 0)
  ∧ (∀ p, p ∉ App.sharkySelected s ∨ p ∉ Player.id <$> App.DEFAULT_PLAYERS →
       App.playerScores (App.sharkyDone s) !! p = App.playerScores s !! p)
  ∧ App.rounds (App.sharkyDone s) = App.rounds s
  ∧ App.topK (App.sharkyDone s)
    = num ((Z.of_nat (length (App.players (App.sharkyDone s))) + 1) `div` 2)
  ∧ (∀ p, p ∈ App.sharkySelected s → p ∈ Player.id <$> App.DEFAULT_PLAYERS →
       p ∈ Player.id <$> App.players s →
       ¬ NoDup (Player.id <$> App.players (App.sharkyDone s))).
Proof.
  assert (∀ p, p ∈ Player.id <$> filter (λ p, Player.id p ∈ App.sharkySelected s)
                                    App.DEFAULT_PLAYERS
               ↔ p ∈ App.sharkySelected s ∧ p ∈ Player.id <$> App.DEFAULT_PLAYERS)
    as Hsel.
  { intros p. rewrite !list_elem_of_fmap. split.
    - intros (pl & -> & Hpl). apply list_elem_of_filter in Hpl as [? ?].
      split; [done|]. by exists pl.
    - intros (Hp & pl & -> & Hpl). exists pl. split; [done|].
      by apply list_elem_of_filter. }
  split; [done|]. split; [|split; [|split; [done|split]]].
  - intros p Hp Hd. simpl. rewrite foldl_zero_lookup, decide_True; [done|].
    by apply Hsel.
  - intros p Hp. simpl. rewrite foldl_zero_lookup, decide_False; [done|].
    rewrite Hsel. tauto.
  - simpl. apply Math_ceil_half.
  - intros p Hp Hd Hin Hnd. simpl in Hnd. rewrite fmap_app in Hnd.
    apply NoDup_app in Hnd as (_ & Hdisj & _).
    apply (Hdisj p Hin). by apply Hsel.
Qed.

(** X22: A click on a default player's card switches its selection and no
    other: the id is selected afterwards exactly when it was not before,
    a selection without repetition stays one, and a second click gives
    back the same set of selected ids. *)
Theorem sharky_toggle_selection (id : string) (s : App.state) :
  (id ∈ App.sharkySelected (App.sharkyToggle id s) ↔ id ∉ App.sharkySelected s)
  ∧ (∀ x, x ≠ id →
       (x ∈ App.sharkySelected (App.sharkyToggle id s) ↔ x ∈ App.sharkySelected s))
  ∧ (NoDup (App.sharkySelected s) → NoDup (App.sharkySelected (App.sharkyToggle id s)))
  ∧ (∀ x, x ∈ App.sharkySelected (App.sharkyToggle id (App.sharkyToggle id s))
          ↔ x ∈ App.sharkySelected s).
Proof.
  assert (∀ t, (id ∈ App.sharkySelected (App.sharkyToggle id t)
                ↔ id ∉ App.sharkySelected t)
               ∧ (∀ x, x ≠ id →
                    (x ∈ App.sharkySelected (App.sharkyToggle id t)
                     ↔ x ∈ App.sharkySelected t))) as Hone.
  { intros t. simpl. case_decide as Hin.
    - split.
      + rewrite list_elem_of_filter. tauto.
      + intros x Hx. rewrite list_elem_of_filter. tauto.
    - split.
      + rewrite elem_of_app, list_elem_of_singleton. tauto.
      + intros x Hx. rewrite elem_of_app, list_elem_of_singleton. tauto. }
  split; [apply Hone|]. split; [apply Hone|]. split.
  - intros Hnd. simpl. case_decide as Hin; [by apply NoDup_filter|].
    apply NoDup_app. split; [done|]. split; [|apply NoDup_singleton].
    intros x Hx Hx'. apply list_elem_of_singleton in Hx'. by subst.
  - intros x. destruct (decide (x = id)) as [->|Hne].
    + rewrite (proj1 (Hone _)), (proj1 (Hone _)).
      destruct (decide (id ∈ App.sharkySelected s)); tauto.
    + by rewrite (proj2 (Hone _) x Hne), (proj2 (Hone _) x Hne).
Qed.

(** ** Names the add-player dialog does not accept (first snapshot) *)

(** X23: A name that is empty after trimming, or that is the password, adds
    nobody: roster, ledger, rounds, bonus table and [topK] are as before.
    On an empty name nothing changes at all and the dialog stays open; on
    the password the dialog closes and the default-player screen opens
    with nothing selected. *)
Theorem unaccepted_name_adds_nobody (trim : string → string)
    (checkPassword : string → bool) (now : N) (s : App.state) :
  trim (App.newPlayerName s) = ""
  ∨ checkPassword (trim (App.newPlayerName s)) = true →
  App.players (App.handleConfirmAddPlayer trim checkPassword now s) = App.players s
  ∧ App.playerScores (App.handleConfirmAddPlayer trim checkPassword now s)
    = App.playerScores s
  ∧ App.rounds (App.handleConfirmAddPlayer trim checkPassword now s) = App.rounds s
  ∧ App.rankBonus (App.handleConfirmAddPlayer trim checkPassword now s)
    = App.rankBonus s
  ∧ App.topK (App.handleConfirmAddPlayer trim checkPassword now s) = App.topK s
  ∧ (trim (App.newPlayerName s) = "" →
       App.handleConfirmAddPlayer trim checkPassword now s = s)
  ∧ (trim (App.newPlayerName s) ≠ "" →
       App.showAddPlayer (App.handleConfirmAddPlayer trim checkPassword now s) = false
       ∧ App.showSharkySelect (App.handleConfirmAddPlayer trim checkPassword now s)
         = true
       ∧ App.sharkySelected (App.handleConfirmAddPlayer trim checkPassword now s)
         = []).
Proof.
  intros H. unfold App.handleConfirmAddPlayer.
  case_decide as Hname; [by repeat split|].
  destruct H as [H|H]; [done|]. rewrite H. by repeat split.
Qed.

Lemma unaccepted_name_adds_nobody_witness :
  let s := App.run decimalNumber asciiTrim demoPassword (take 2 importEvents1) App.init in
  App.players (App.handleConfirmAddPlayer asciiTrim demoPassword 1000 s) = App.players s
  ∧ App.showSharkySelect (App.handleConfirmAddPlayer asciiTrim demoPassword 1000 s)
    = true.
Proof.
  intros s.
  assert (asciiTrim (App.newPlayerName s) = ""
          ∨ demoPassword (asciiTrim (App.newPlayerName s)) = true) as H
    by (right; vm_compute; reflexivity).
  pose proof (unaccepted_name_adds_nobody asciiTrim demoPassword 1000 s H)
    as (Hp & _ & _ & _ & _ & _ & Hs).
  split; [exact Hp|]. apply Hs. vm_compute. discriminate.
Defined.

(** ** Restoring the defaults *)

(** X24: A confirmed "restore defaults" brings every data cell back to its
    first-visit value.  In the second snapshot the state is the initial
    one, apart from the two other dialogs, which stay as they are.  In
    the first snapshot the roster, rounds, bonus table and [topK] are the
    initial ones, and the ledger is the empty object instead of the
    initial zero entries of the default ids: every reader, who takes an
    absent entry as 0, sees the same.  Unconfirmed, nothing changes. *)
Theorem revert_returns_to_first_visit (sg : Grouped.state) (sa : App.state) :
  Grouped.revertToDefault true sg
  = Grouped.setShowGroupSetup (Grouped.showGroupSetup sg)
      (Grouped.setShowRoundDialog (Grouped.showRoundDialog sg) Grouped.init)
  ∧ Grouped.revertToDefault false sg = sg
  ∧ App.players (App.revertToDefault true sa) = App.players App.init
  ∧ App.rounds (App.revertToDefault true sa) = App.rounds App.init
  ∧ App.rankBonus (App.revertToDefault true sa) = App.rankBonus App.init
  ∧ App.topK (App.revertToDefault true sa) = App.topK App.init
  ∧ App.showSettings (App.revertToDefault true sa) = false
  ∧ App.playerScores (App.revertToDefault true sa) = ∅
  ∧ App.playerScores (App.revertToDefault true sa) ≠ App.playerScores App.init
  ∧ (∀ p, JS.orZero (App.playerScores (App.revertToDefault true sa) !! p)
          = JS.orZero (App.playerScores App.init !! p))
  ∧ App.revertToDefault false sa = sa.
Proof.
  split; [by destruct sg|]. split; [done|].
  do 6 (split; [reflexivity|]). split; [|split; [|done]].
  - simpl. intros H.
    assert (zeroScores App.DEFAULT_PLAYERS !! "p1" = Some 0) as H1
      by (rewrite zeroScores_roster; apply decide_True;
          apply (bool_decide_unpack _); vm_compute; reflexivity).
    by rewrite <- H, lookup_empty in H1.
  - intros p. simpl. by rewrite lookup_empty, zeroScores_orZero.
Qed.
